(** * Mortgage_Dashboard: the amortization engine of streamlit_app.py

    A shallow embedding of the four engine functions of [streamlit_app.py]
    ([calculate_monthly_payment], [amortization_schedule],
    [amortization_schedule_with_payoffs], [amortization_refinance]) and of
    the part of [main] that stitches a refinance onto a schedule.

    Money and rates are Python floats in the source.  The engine is embedded
    twice.  First over exact rationals ([Q]): every [+], [-], [*], [/] and
    comparison of the source is the corresponding operation of [Q], without
    rounding; equality of amounts is [Qeq] ([==]) and calls that raise
    [ZeroDivisionError] return [None].  This embedding carries the
    properties that rounding preserves (orderings, bounds, the shape of the
    schedules).  Then over IEEE binary64 (module [B64]), operation by
    operation as CPython runs them: it carries what depends on rounding,
    on the exceptions of Python's float arithmetic and on [int()]. *)

From Stdlib Require Import ZArith QArith Qround Qpower Lqa Lia List Bool.
From Stdlib Require Import PrimFloat SpecFloat FloatOps FloatAxioms.

Set Warnings "-inexact-float".
Import ListNotations.

Local Open Scope Q_scope.

(** ** Python arithmetic that can raise *)

(** [x > y] on floats. *)
Definition Qgt_bool (x y : Q) : bool := negb (Qle_bool x y).

(** [x / y]: a zero divisor raises. *)
Definition py_div (x y : Q) : option Q :=
  if Qeq_bool y 0 then None else Some (x / y).

(** [x ** y] for an integer exponent: a zero base with a negative exponent
    raises. *)
Definition py_pow (x : Q) (y : Z) : option Q :=
  if Qeq_bool x 0 && (y <? 0)%Z then None else Some (x ^ y).

(** [int(x)]: truncation toward zero. *)
Definition py_int (x : Q) : Z := Z.quot (Qnum x) (Zpos (Qden x)).

(** [min(a, b)]: [b] when [b < a], else [a]. *)
Definition py_min (a b : Q) : Q := if Qgt_bool a b then b else a.

(** ** calculate_monthly_payment (lines 6-9) *)

(** Line 9, for a monthly rate and a whole number of payments. *)
Definition annuity_payment (monthly_rate principal : Q) (n_payments : Z)
  : option Q :=
  match py_pow (1 + monthly_rate) (- n_payments) with
  | None => None
  | Some p => py_div (monthly_rate * principal) (1 - p)
  end.

(** [years] is the integer of the "Loan Duration" slider. *)
Definition calculate_monthly_payment (principal annual_interest_rate : Q)
  (years : Z) : option Q :=
  let monthly_rate := annual_interest_rate / 12 in
  let n_payments := (years * 12)%Z in
  annuity_payment monthly_rate principal n_payments.

(** ** Data frames *)

(** [Series.cumsum()]: the running sums, the first one being the first
    element itself. *)
Fixpoint cumsum_from (acc : Q) (xs : list Q) : list Q :=
  match xs with
  | [] => []
  | x :: xs' => (acc + x) :: cumsum_from (acc + x) xs'
  end.

Definition cumsum (xs : list Q) : list Q :=
  match xs with
  | [] => []
  | x :: xs' => x :: cumsum_from x xs'
  end.

(** ** amortization_schedule (lines 11-41) *)

(** What one iteration of the loop appends to the four lists. *)
Record base_entry := mkBaseEntry {
  be_balance : Q;
  be_interest : Q;
  be_principal : Q;
  be_payment : Q
}.

(** The loop of lines 17-31, [months] iterations left. *)
Fixpoint base_loop (monthly_rate payment : Q) (months : nat) (balance : Q)
  : list base_entry :=
  match months with
  | O => []
  | S months' =>
      let interest := balance * monthly_rate in
      let principal_payment := payment - interest in
      let clamp := Qgt_bool principal_payment balance in
      let principal_payment := if clamp then balance else principal_payment in
      let payment_this_month :=
        if clamp then interest + principal_payment else payment in
      let balance := balance - principal_payment in
      mkBaseEntry balance interest principal_payment payment_this_month
      :: (if Qle_bool balance 0 then []
          else base_loop monthly_rate payment months' balance)
  end.

(** A row of the data frame of lines 32-40. *)
Record base_row := mkBaseRow {
  b_Month : Z;
  b_Balance : Q;
  b_Interest : Q;
  b_Principal : Q;
  b_Payment : Q;
  b_CumulativeInterest : Q;
  b_CumulativePayment : Q
}.

Fixpoint base_frame (month : Z) (es : list base_entry) (cis cps : list Q)
  : list base_row :=
  match es, cis, cps with
  | e :: es', ci :: cis', cp :: cps' =>
      mkBaseRow month (be_balance e) (be_interest e) (be_principal e)
        (be_payment e) ci cp
      :: base_frame (month + 1) es' cis' cps'
  | _, _, _ => []
  end.

Definition amortization_schedule (principal annual_interest_rate : Q)
  (years : Z) : option (list base_row) :=
  let monthly_rate := annual_interest_rate / 12 in
  let n_payments := (years * 12)%Z in
  match calculate_monthly_payment principal annual_interest_rate years with
  | None => None
  | Some payment =>
      let es := base_loop monthly_rate payment (Z.to_nat n_payments) principal in
      Some (base_frame 1 es (cumsum (map be_interest es))
              (cumsum (map be_payment es)))
  end.

(** ** amortization_schedule_with_payoffs (lines 43-82) *)

Record extra_entry := mkExtraEntry {
  xe_balance : Q;
  xe_interest : Q;
  xe_sched_principal : Q;
  xe_extra : Q;
  xe_payment : Q
}.

(** Line 56: [lump_sum_month and month == lump_sum_month]; [None] and [0]
    are both false. *)
Definition is_lump_month (lump_sum_month : option Z) (month : Z) : bool :=
  match lump_sum_month with
  | None => false
  | Some l => negb (l =? 0)%Z && (month =? l)%Z
  end.

(** The loop of lines 52-71; [month] is the loop variable. *)
Fixpoint extra_loop (monthly_rate base_payment monthly_extra_payment : Q)
  (lump_sum_month : option Z) (lump_sum_amount : Q)
  (months : nat) (month : Z) (balance : Q) : list extra_entry :=
  match months with
  | O => []
  | S months' =>
      let interest := balance * monthly_rate in
      let sched_principal := base_payment - interest in
      let extra := monthly_extra_payment in
      let extra :=
        if is_lump_month lump_sum_month month then extra + lump_sum_amount
        else extra in
      let total_principal := sched_principal + extra in
      let clamp := Qgt_bool total_principal balance in
      let total_principal := if clamp then balance else total_principal in
      let sched_principal :=
        if clamp then py_min sched_principal total_principal
        else sched_principal in
      let extra := if clamp then total_principal - sched_principal else extra in
      let payment_this_month := interest + total_principal in
      let balance := balance - total_principal in
      mkExtraEntry balance interest sched_principal extra payment_this_month
      :: (if Qle_bool balance 0 then []
          else extra_loop monthly_rate base_payment monthly_extra_payment
                 lump_sum_month lump_sum_amount months' (month + 1) balance)
  end.

Record extra_row := mkExtraRow {
  x_Month : Z;
  x_Balance : Q;
  x_Interest : Q;
  x_ScheduledPrincipal : Q;
  x_ExtraPrincipal : Q;
  x_Payment : Q;
  x_CumulativeInterest : Q;
  x_CumulativePayment : Q
}.

Fixpoint extra_frame (month : Z) (es : list extra_entry) (cis cps : list Q)
  : list extra_row :=
  match es, cis, cps with
  | e :: es', ci :: cis', cp :: cps' =>
      mkExtraRow month (xe_balance e) (xe_interest e) (xe_sched_principal e)
        (xe_extra e) (xe_payment e) ci cp
      :: extra_frame (month + 1) es' cis' cps'
  | _, _, _ => []
  end.

Definition amortization_schedule_with_payoffs
  (principal annual_interest_rate : Q) (years : Z)
  (monthly_extra_payment : Q) (lump_sum_month : option Z)
  (lump_sum_amount : Q) : option (list extra_row) :=
  let monthly_rate := annual_interest_rate / 12 in
  let n_payments := (years * 12)%Z in
  match calculate_monthly_payment principal annual_interest_rate years with
  | None => None
  | Some base_payment =>
      let es := extra_loop monthly_rate base_payment monthly_extra_payment
                  lump_sum_month lump_sum_amount (Z.to_nat n_payments) 1
                  principal in
      Some (extra_frame 1 es (cumsum (map xe_interest es))
              (cumsum (map xe_payment es)))
  end.

(** ** amortization_refinance (lines 84-120) *)

Record refi_row := mkRefiRow {
  r_Month : Z;
  r_Balance : Q;
  r_Interest : Q;
  r_Payment : Q;
  r_CumulativeInterest : Q;
  r_CumulativePayment : Q
}.

(** The loop of lines 94-112; [m] is the loop variable. *)
Fixpoint refi_loop (monthly_rate monthly_payment : Q) (start_month : Z)
  (months : nat) (m : Z) (balance cum_int cum_pay : Q) : list refi_row :=
  match months with
  | O => []
  | S months' =>
      let interest := balance * monthly_rate in
      let princ := monthly_payment - interest in
      let clamp := Qgt_bool princ balance in
      let princ := if clamp then balance else princ in
      let payment_m := if clamp then interest + princ else monthly_payment in
      let balance := balance - princ in
      let cum_int := cum_int + interest in
      let cum_pay := cum_pay + payment_m in
      mkRefiRow (start_month + m) balance interest payment_m cum_int cum_pay
      :: (if Qle_bool balance 0 then []
          else refi_loop monthly_rate monthly_payment start_month months'
                 (m + 1) balance cum_int cum_pay)
  end.

(** [years] may be fractional; line 88 truncates [years * 12]. *)
Definition amortization_refinance (principal annual_interest_rate years
  monthly_payment : Q) (start_month : Z)
  (cum_interest_offset cum_payment_offset : Q) : list refi_row :=
  let monthly_rate := annual_interest_rate / 12 in
  let n_payments := py_int (years * 12) in
  refi_loop monthly_rate monthly_payment start_month (Z.to_nat n_payments) 1
    principal cum_interest_offset cum_payment_offset.

(** ** The part of main that stitches the refinance (lines 141-161) *)

(** [df.iloc[k]]: a negative [k] counts from the end; out of range raises. *)
Definition iloc {A : Type} (rows : list A) (k : Z) : option A :=
  let n := Z.of_nat (length rows) in
  if (0 <=? k)%Z then nth_error rows (Z.to_nat k)
  else if (- n <=? k)%Z then nth_error rows (Z.to_nat (n + k))
  else None.

(** Lines 144-147. *)
Definition pre_row (pre_refi : list extra_row) (lump_month : Z)
  : option extra_row :=
  if (lump_month <=? Z.of_nat (length pre_refi))%Z
  then iloc pre_refi (lump_month - 1)
  else iloc pre_refi (-1).

(** Line 151. *)
Definition rem_years (years lump_month : Z) : Q :=
  inject_Z years - inject_Z lump_month / 12.

Record scenario := mkScenario {
  pre_refi : list extra_row;
  refi_std : list refi_row;
  refi_extra : list refi_row
}.

(** Lines 141-161: the schedule with extras and the two refinance
    schedules stitched onto it.  Line 153 calls calculate_monthly_payment
    with the fractional [rem_years]; its payment count [rem_years * 12] is
    the integer [years * 12 - lump_month], which is passed to
    [annuity_payment] directly. *)
Definition main_schedules (principal rate_before rate_after : Q) (years : Z)
  (extra_before extra_after : Q) (lump_month : Z) (lump_amount : Q)
  : option scenario :=
  match amortization_schedule_with_payoffs principal rate_before years
          extra_before (Some lump_month) lump_amount with
  | None => None
  | Some pre_refi =>
  match pre_row pre_refi lump_month with
  | None => None
  | Some pre =>
      let bal_post := x_Balance pre in
      let cum_int_pre := x_CumulativeInterest pre in
      let cum_pay_pre := x_CumulativePayment pre in
      let rem := rem_years years lump_month in
      match annuity_payment (rate_after / 12) bal_post
              (years * 12 - lump_month) with
      | None => None
      | Some new_std =>
          let new_std_plus := new_std + extra_after in
          Some (mkScenario pre_refi
                  (amortization_refinance bal_post rate_after rem new_std
                     lump_month cum_int_pre cum_pay_pre)
                  (amortization_refinance bal_post rate_after rem new_std_plus
                     lump_month cum_int_pre cum_pay_pre))
      end
  end end.

(** ** Properties of schedules, as the specification words them *)

(** Closing balances strictly decrease from record to record. *)
Fixpoint strictly_decreasing (bs : list Q) : Prop :=
  match bs with
  | x :: ((y :: _) as bs') => y < x /\ strictly_decreasing bs'
  | _ => True
  end.

(** Closing balances never increase from record to record. *)
Fixpoint non_increasing (bs : list Q) : Prop :=
  match bs with
  | x :: ((y :: _) as bs') => y <= x /\ non_increasing bs'
  | _ => True
  end.

(** There is a final record and its closing balance is 0. *)
Fixpoint final_is_zero (bs : list Q) : Prop :=
  match bs with
  | [] => False
  | [b] => b == 0
  | _ :: bs' => final_is_zero bs'
  end.

(** No record follows one whose balance is 0: every balance before the
    final one is positive. *)
Fixpoint positive_before_final (bs : list Q) : Prop :=
  match bs with
  | [] => True
  | [_] => True
  | b :: bs' => 0 < b /\ positive_before_final bs'
  end.

(** The schedule invariant of the data model, on the column of closing
    balances. *)
Definition payoff_invariant (bs : list Q) : Prop :=
  non_increasing bs /\ strictly_decreasing bs /\ final_is_zero bs
  /\ positive_before_final bs.

(** Valid loan terms. *)
Definition valid_terms (principal annual_interest_rate : Q) (years : Z)
  : Prop :=
  0 < principal /\ 0 < annual_interest_rate /\ annual_interest_rate < 1
  /\ (0 < years)%Z.

(** The balance after [k] unclamped standard payments. *)
Fixpoint ideal_balance (monthly_rate payment principal : Q) (k : nat) : Q :=
  match k with
  | O => principal
  | S k' => ideal_balance monthly_rate payment principal k' * (1 + monthly_rate)
            - payment
  end.

(** A payoff path from an opening balance: each closing balance is below
    the one before, positive until the final one, which is 0. *)
Fixpoint payoff_path (opening : Q) (bs : list Q) : Prop :=
  match bs with
  | [] => False
  | b :: bs' =>
      b < opening
      /\ match bs' with
         | [] => b == 0
         | _ :: _ => 0 < b /\ payoff_path b bs'
         end
  end.

(** An entry of the plain loop and an entry of the loop with extras agree:
    same balance, interest and payment, and the plain principal is the sum
    of the scheduled and extra principal; with no monthly extra the extra
    principal is 0. *)
Definition entries_agree (monthly_extra_payment : Q) (be : base_entry)
  (xe : extra_entry) : Prop :=
  be_balance be == xe_balance xe
  /\ be_interest be == xe_interest xe
  /\ be_payment be == xe_payment xe
  /\ be_principal be == xe_sched_principal xe + xe_extra xe
  /\ (monthly_extra_payment == 0 -> xe_extra xe == 0).



(** Line 55-57: the extra principal offered in a month. *)
Definition extra_at (monthly_extra_payment : Q) (lump_sum_month : option Z)
  (lump_sum_amount : Q) (month : Z) : Q :=
  if is_lump_month lump_sum_month month
  then monthly_extra_payment + lump_sum_amount
  else monthly_extra_payment.



(** A record of a refinance that changes nothing: it follows the
    transition month, owes nothing, charges nothing, and repeats the
    cumulative totals it was given. *)
Definition noop_row (start_month : Z) (cum_int cum_pay : Q) (row : refi_row)
  : Prop :=
  r_Month row = (start_month + 1)%Z
  /\ r_Balance row == 0
  /\ r_Interest row == 0
  /\ r_Payment row == 0
  /\ r_CumulativeInterest row == cum_int
  /\ r_CumulativePayment row == cum_pay.

(** The last row of a frame. *)
Definition last_row {A : Type} (rows : list A) : option A :=
  nth_error rows (length rows - 1).





(** ** Further vocabulary for properties of the schedules *)


(** [range(start, start + len)]. *)
Fixpoint Zrange (start : Z) (len : nat) : list Z :=
  match len with
  | O => []
  | S len' => start :: Zrange (start + 1) len'
  end.


(** A property of every record but the final one. *)
Fixpoint before_final {A : Type} (P : A -> Prop) (rows : list A) : Prop :=
  match rows with
  | [] => True
  | [_] => True
  | row :: rows' => P row /\ before_final P rows'
  end.


(** ** Vocabulary of the statements that rounding preserves *)

(** No record follows one whose balance is 0, and a schedule that stops
    before [bound] records stops on a balance of 0. *)
Definition stops_at_zero (bound : nat) (balances : list Q) : Prop :=
  positive_before_final balances
  /\ ((length balances < bound)%nat -> final_is_zero balances).


(** A property of each record and of the balance it opens on, along a
    schedule. *)
Fixpoint each_from {A : Type} (closing : A -> Q) (ok : Q -> A -> Prop)
  (opening : Q) (rows : list A) : Prop :=
  match rows with
  | [] => True
  | row :: rows' => ok opening row /\ each_from closing ok (closing row) rows'
  end.

(** A baseline record, as lines 18-25 compute it: the balance goes down by
    the principal; an ordinary month pays the scheduled payment, of which
    the principal is what the interest leaves; the payoff month pays the
    interest plus the whole opening balance. *)
Definition base_record_ok (payment opening : Q) (row : base_row) : Prop :=
  b_Balance row == opening - b_Principal row
  /\ ((b_Payment row == payment
       /\ b_Principal row == payment - b_Interest row)
      \/ (b_Principal row == opening
          /\ b_Payment row == b_Interest row + b_Principal row)).

(** A record with extras, as lines 53-64 compute it: the payment is the
    interest plus the total principal, which is scheduled plus extra in an
    ordinary month and the opening balance in the payoff month, where the
    extra is what the scheduled principal leaves of it; the extra is never
    negative and the scheduled principal never above the total. *)
Definition extra_record_ok (opening : Q) (row : extra_row) : Prop :=
  0 <= x_ExtraPrincipal row
  /\ ((x_Payment row
       == x_Interest row + (x_ScheduledPrincipal row + x_ExtraPrincipal row)
       /\ x_Balance row
          == opening - (x_ScheduledPrincipal row + x_ExtraPrincipal row)
       /\ x_ScheduledPrincipal row
          <= x_ScheduledPrincipal row + x_ExtraPrincipal row)
      \/ (x_Payment row == x_Interest row + opening
          /\ x_Balance row == 0
          /\ x_ExtraPrincipal row == opening - x_ScheduledPrincipal row
          /\ x_ScheduledPrincipal row <= opening)).

(** A refinance record, as lines 95-102 compute it. *)
Definition refi_record_ok (payment opening : Q) (row : refi_row) : Prop :=
  (r_Payment row == payment
   /\ r_Balance row == opening - (payment - r_Interest row))
  \/ (r_Payment row == r_Interest row + opening /\ r_Balance row == 0).

(** * The engine in binary64

    The same four functions over IEEE binary64 ([PrimFloat.float]), as
    CPython evaluates them: every [+], [-], [*], [/] rounds to nearest even,
    a division of Python floats by zero raises, [int()] truncates, and [**]
    is CPython's [float_pow].  The C library's [pow], which [float_pow]
    calls outside its special cases, is a parameter ([libm_pow]). *)

Module B64.

Local Open Scope float_scope.

Inductive error :=
| ZeroDivisionError
| OverflowError
| ValueError
| ComplexPower.

Inductive result (A : Type) :=
| Value (a : A)
| Raise (e : error).

Arguments Value {A} a.
Arguments Raise {A} e.

Definition bind {A B : Type} (r : result A) (k : A -> result B) : result B :=
  match r with
  | Value a => k a
  | Raise e => Raise e
  end.

(** The real number a finite float stands for. *)
Definition exact (x : float) : Q :=
  match Prim2SF x with
  | S754_finite s m e =>
      ((if s then -1 else 1) * (inject_Z (Zpos m) * 2 ^ e))%Q
  | _ => 0%Q
  end.

(** The integer part of a finite float, toward zero. *)
Definition trunc (x : float) : Z :=
  match Prim2SF x with
  | S754_finite s m e =>
      let z := if (0 <=? e)%Z then (Zpos m * 2 ^ e)%Z
               else (Zpos m / 2 ^ (- e))%Z in
      if s then (- z)%Z else z
  | _ => 0%Z
  end.

(** [x == floor(x)] for a finite [x]. *)
Definition is_integer (x : float) : bool :=
  match Prim2SF x with
  | S754_zero _ => true
  | S754_finite _ m e =>
      if (0 <=? e)%Z then true else (Zpos m mod 2 ^ (- e) =? 0)%Z
  | _ => false
  end.

(** CPython's [DOUBLE_IS_ODD_INTEGER]. *)
Definition is_odd_integer (x : float) : bool :=
  is_integer x && Z.odd (trunc x).

(** [float(z)] for a Python int: the nearest float. *)
Definition of_Z (z : Z) : float :=
  SF2Prim (binary_normalize prec emax z 0 false).

(** [int(x)]: truncation; NaN and the infinities raise. *)
Definition py_int (x : float) : result Z :=
  match Prim2SF x with
  | S754_nan => Raise ValueError
  | S754_infinity _ => Raise OverflowError
  | _ => Value (trunc x)
  end.

(** [min(a, b)]: [b] when [b < a], else [a]. *)
Definition py_min (a b : float) : float := if b <? a then b else a.

(** A float argument is a Python float or, when read from a data frame as
    in main, a numpy.float64: they differ in what a division by zero does. *)
Inductive amount :=
| Py (x : float)
| Np (x : float).

Definition amount_value (a : amount) : float :=
  match a with
  | Py x => x
  | Np x => x
  end.

(** The [years] argument of calculate_monthly_payment: the int of the
    slider, or the float [rem_years] of main. *)
Inductive term :=
| Whole (z : Z)
| Fraction (x : float).

(** [-n_payments] with [n_payments = years * 12], as the float handed to
    [**]. *)
Definition minus_n_payments (years : term) : float :=
  match years with
  | Whole z => of_Z (- (z * 12))
  | Fraction y => - (y * 12)
  end.


Section Engine.

(** The C library's [pow]. *)
Variable libm_pow : float -> float -> float.

(** CPython's [float_pow] (Objects/floatobject.c): [iv ** iw]. *)
Definition py_pow (iv iw : float) : result float :=
  if iw =? 0 then Value 1
  else if is_nan iv then Value iv
  else if is_nan iw then Value (if iv =? 1 then 1 else iw)
  else if is_infinity iw then
    let iv := abs iv in
    if iv =? 1 then Value 1
    else if Bool.eqb (0 <? iw) (1 <? iv) then Value (abs iw)
    else Value 0
  else if is_infinity iv then
    let iw_is_odd := is_odd_integer iw in
    if 0 <? iw then Value (if iw_is_odd then iv else abs iv)
    else Value (if iw_is_odd then (if iv <? 0 then -0 else 0) else 0)
  else if iv =? 0 then
    if iw <? 0 then Raise ZeroDivisionError
    else Value (if is_odd_integer iw then iv else 0)
  else
    let negative := iv <? 0 in
    if negative && negb (is_integer iw) then Raise ComplexPower
    else
      let negate_result := negative && is_odd_integer iw in
      let iv := if negative then - iv else iv in
      if iv =? 1 then Value (if negate_result then -1 else 1)
      else
        let ix := libm_pow iv iw in
        if is_infinity ix then Raise OverflowError
        else Value (if negate_result then - ix else ix).

(** Lines 6-9. *)
Definition calculate_monthly_payment (principal : amount)
  (annual_interest_rate : float) (years : term) : result float :=
  let monthly_rate := annual_interest_rate / 12 in
  bind (py_pow (1 + monthly_rate) (minus_n_payments years)) (fun p =>
  let numerator := monthly_rate * amount_value principal in
  let divisor := 1 - p in
  match principal with
  | Py _ =>
      if divisor =? 0 then Raise ZeroDivisionError
      else Value (numerator / divisor)
  | Np _ => Value (numerator / divisor)
  end).

(** [Series.cumsum()]. *)
Fixpoint cumsum_from (acc : float) (xs : list float) : list float :=
  match xs with
  | [] => []
  | x :: xs' => (acc + x) :: cumsum_from (acc + x) xs'
  end.

Definition cumsum (xs : list float) : list float :=
  match xs with
  | [] => []
  | x :: xs' => x :: cumsum_from x xs'
  end.

(** amortization_schedule (lines 11-41). *)
Record base_entry := mkBaseEntry {
  be_balance : float;
  be_interest : float;
  be_principal : float;
  be_payment : float
}.

Fixpoint base_loop (monthly_rate payment : float) (months : nat)
  (balance : float) : list base_entry :=
  match months with
  | O => []
  | S months' =>
      let interest := balance * monthly_rate in
      let principal_payment := payment - interest in
      let clamp := balance <? principal_payment in
      let principal_payment := if clamp then balance else principal_payment in
      let payment_this_month :=
        if clamp then interest + principal_payment else payment in
      let balance := balance - principal_payment in
      mkBaseEntry balance interest principal_payment payment_this_month
      :: (if balance <=? 0 then []
          else base_loop monthly_rate payment months' balance)
  end.

Record base_row := mkBaseRow {
  b_Month : Z;
  b_Balance : float;
  b_Interest : float;
  b_Principal : float;
  b_Payment : float;
  b_CumulativeInterest : float;
  b_CumulativePayment : float
}.

Fixpoint base_frame (month : Z) (es : list base_entry)
  (cis cps : list float) : list base_row :=
  match es, cis, cps with
  | e :: es', ci :: cis', cp :: cps' =>
      mkBaseRow month (be_balance e) (be_interest e) (be_principal e)
        (be_payment e) ci cp
      :: base_frame (month + 1) es' cis' cps'
  | _, _, _ => []
  end.

Definition amortization_schedule (principal annual_interest_rate : float)
  (years : Z) : result (list base_row) :=
  let monthly_rate := annual_interest_rate / 12 in
  let n_payments := (years * 12)%Z in
  bind (calculate_monthly_payment (Py principal) annual_interest_rate
          (Whole years)) (fun payment =>
  let es := base_loop monthly_rate payment (Z.to_nat n_payments) principal in
  Value (base_frame 1 es (cumsum (map be_interest es))
           (cumsum (map be_payment es)))).

(** amortization_schedule_with_payoffs (lines 43-82). *)
Record extra_entry := mkExtraEntry {
  xe_balance : float;
  xe_interest : float;
  xe_sched_principal : float;
  xe_extra : float;
  xe_payment : float
}.

Fixpoint extra_loop (monthly_rate base_payment monthly_extra_payment : float)
  (lump_sum_month : option Z) (lump_sum_amount : float)
  (months : nat) (month : Z) (balance : float) : list extra_entry :=
  match months with
  | O => []
  | S months' =>
      let interest := balance * monthly_rate in
      let sched_principal := base_payment - interest in
      let extra := monthly_extra_payment in
      let extra :=
        if is_lump_month lump_sum_month month then extra + lump_sum_amount
        else extra in
      let total_principal := sched_principal + extra in
      let clamp := balance <? total_principal in
      let total_principal := if clamp then balance else total_principal in
      let sched_principal :=
        if clamp then py_min sched_principal total_principal
        else sched_principal in
      let extra := if clamp then total_principal - sched_principal else extra in
      let payment_this_month := interest + total_principal in
      let balance := balance - total_principal in
      mkExtraEntry balance interest sched_principal extra payment_this_month
      :: (if balance <=? 0 then []
          else extra_loop monthly_rate base_payment monthly_extra_payment
                 lump_sum_month lump_sum_amount months' (month + 1) balance)
  end.

Record extra_row := mkExtraRow {
  x_Month : Z;
  x_Balance : float;
  x_Interest : float;
  x_ScheduledPrincipal : float;
  x_ExtraPrincipal : float;
  x_Payment : float;
  x_CumulativeInterest : float;
  x_CumulativePayment : float
}.

Fixpoint extra_frame (month : Z) (es : list extra_entry)
  (cis cps : list float) : list extra_row :=
  match es, cis, cps with
  | e :: es', ci :: cis', cp :: cps' =>
      mkExtraRow month (xe_balance e) (xe_interest e) (xe_sched_principal e)
        (xe_extra e) (xe_payment e) ci cp
      :: extra_frame (month + 1) es' cis' cps'
  | _, _, _ => []
  end.

Definition amortization_schedule_with_payoffs
  (principal annual_interest_rate : float) (years : Z)
  (monthly_extra_payment : float) (lump_sum_month : option Z)
  (lump_sum_amount : float) : result (list extra_row) :=
  let monthly_rate := annual_interest_rate / 12 in
  let n_payments := (years * 12)%Z in
  bind (calculate_monthly_payment (Py principal) annual_interest_rate
          (Whole years)) (fun base_payment =>
  let es := extra_loop monthly_rate base_payment monthly_extra_payment
              lump_sum_month lump_sum_amount (Z.to_nat n_payments) 1
              principal in
  Value (extra_frame 1 es (cumsum (map xe_interest es))
           (cumsum (map xe_payment es)))).

End Engine.

(** amortization_refinance (lines 84-120): no power is taken. *)
Record refi_row := mkRefiRow {
  r_Month : Z;
  r_Balance : float;
  r_Interest : float;
  r_Payment : float;
  r_CumulativeInterest : float;
  r_CumulativePayment : float
}.

Fixpoint refi_loop (monthly_rate monthly_payment : float) (start_month : Z)
  (months : nat) (m : Z) (balance cum_int cum_pay : float)
  : list refi_row :=
  match months with
  | O => []
  | S months' =>
      let interest := balance * monthly_rate in
      let princ := monthly_payment - interest in
      let clamp := balance <? princ in
      let princ := if clamp then balance else princ in
      let payment_m := if clamp then interest + princ else monthly_payment in
      let balance := balance - princ in
      let cum_int := cum_int + interest in
      let cum_pay := cum_pay + payment_m in
      mkRefiRow (start_month + m) balance interest payment_m cum_int cum_pay
      :: (if balance <=? 0 then []
          else refi_loop monthly_rate monthly_payment start_month months'
                 (m + 1) balance cum_int cum_pay)
  end.

Definition amortization_refinance (principal annual_interest_rate years
  monthly_payment : float) (start_month : Z)
  (cum_interest_offset cum_payment_offset : float)
  : result (list refi_row) :=
  let monthly_rate := annual_interest_rate / 12 in
  bind (py_int (years * 12)) (fun n_payments =>
  Value (refi_loop monthly_rate monthly_payment start_month
           (Z.to_nat n_payments) 1 principal cum_interest_offset
           cum_payment_offset)).

(** The nearest float to a rational (ties to even). *)
Definition nearest (q : Q) : float :=
  let a := Qnum q in
  let b := Zpos (Qden q) in
  if (a =? 0)%Z then 0
  else
    let s := (Z.log2 b - Z.log2 (Z.abs a) + 64)%Z in
    let n := if (0 <=? s)%Z then (Z.abs a * 2 ^ s)%Z else Z.abs a in
    let d := if (0 <=? s)%Z then b else (b * 2 ^ (- s))%Z in
    let sticky := if (n mod d =? 0)%Z then 0%Z else 1%Z in
    let r := SF2Prim (binary_normalize prec emax (2 * (n / d) + sticky)
                        (- s - 1) false) in
    if (a <? 0)%Z then - r else r.

(** A [pow] for evaluating the engine at concrete inputs with a whole
    exponent: the correctly rounded power.  (On other exponents it is
    undefined, NaN.) *)
Definition pow_nearest (x y : float) : float :=
  if is_integer y then nearest (exact x ^ trunc y)%Q else nan.

End B64.
(** * Arithmetic of the source operations *)

Lemma Qgt_bool_true x y : Qgt_bool x y = true <-> y < x.
Proof.
  unfold Qgt_bool. rewrite negb_true_iff.
  destruct (Qle_bool x y) eqn:E.
  - apply Qle_bool_iff in E. split; [discriminate | intro; lra].
  - split; [intros _ | reflexivity].
    destruct (Qlt_le_dec y x) as [H | H]; [exact H |].
    apply Qle_bool_iff in H. congruence.
Qed.

Lemma Qgt_bool_false x y : Qgt_bool x y = false <-> x <= y.
Proof.
  unfold Qgt_bool. rewrite negb_false_iff. apply Qle_bool_iff.
Qed.

Lemma Qle_bool_false x y : Qle_bool x y = false <-> y < x.
Proof.
  rewrite <- Qgt_bool_true. unfold Qgt_bool.
  destruct (Qle_bool x y); simpl; intuition congruence.
Qed.

Lemma Qeq_bool_false x y : Qeq_bool x y = false <-> ~ x == y.
Proof.
  split; [apply Qeq_bool_neq |].
  intro H. destruct (Qeq_bool x y) eqn:E; [| reflexivity].
  apply Qeq_bool_iff in E. contradiction.
Qed.

Lemma py_div_some x y : ~ y == 0 -> py_div x y = Some (x / y).
Proof.
  intro H. unfold py_div. apply Qeq_bool_false in H. now rewrite H.
Qed.


Lemma py_pow_some x y : ~ x == 0 -> py_pow x y = Some (x ^ y).
Proof.
  intro H. unfold py_pow. apply Qeq_bool_false in H. now rewrite H.
Qed.

(** * The annuity payment *)

Section Annuity.

Variables (monthly_rate principal : Q) (n_payments : Z).
Hypothesis rate_pos : 0 < monthly_rate.
Hypothesis n_pos : (0 < n_payments)%Z.

Lemma growth_gt_1 : 1 < (1 + monthly_rate) ^ n_payments.
Proof. apply Qpower_1_lt; [lra | exact n_pos]. Qed.

Lemma discount_lt_1 :
  0 < (1 + monthly_rate) ^ (- n_payments)
  /\ (1 + monthly_rate) ^ (- n_payments) < 1.
Proof.
  pose proof growth_gt_1 as G.
  split.
  - apply Qpower_0_lt. lra.
  - rewrite Qpower_opp.
    assert (E : 1 == / 1) by reflexivity.
    rewrite E at 2.
    apply -> Qinv_lt_contravar; lra.
Qed.

Lemma annuity_payment_eq :
  annuity_payment monthly_rate principal n_payments
  = Some (monthly_rate * principal
          / (1 - (1 + monthly_rate) ^ (- n_payments))).
Proof.
  unfold annuity_payment.
  rewrite py_pow_some by lra.
  apply py_div_some. pose proof discount_lt_1. lra.
Qed.

Lemma annuity_identity (payment : Q) :
  annuity_payment monthly_rate principal n_payments = Some payment ->
  payment * ((1 + monthly_rate) ^ n_payments - 1)
  == monthly_rate * principal * (1 + monthly_rate) ^ n_payments.
Proof.
  rewrite annuity_payment_eq. intro E. injection E as <-.
  pose proof growth_gt_1 as G.
  rewrite Qpower_opp. field. split; lra.
Qed.

Lemma annuity_exceeds_interest (payment : Q) :
  0 < principal ->
  annuity_payment monthly_rate principal n_payments = Some payment ->
  monthly_rate * principal < payment.
Proof.
  intros HP E. pose proof (annuity_identity payment E) as I.
  pose proof growth_gt_1 as G.
  assert (0 < monthly_rate * principal) by nra.
  nra.
Qed.

End Annuity.

(** * The unclamped balance sequence *)

Lemma ideal_balance_closed_form (r payment principal : Q) (k : nat) :
  0 < r ->
  r * ideal_balance r payment principal k
  == r * principal * (1 + r) ^ Z.of_nat k
     - payment * ((1 + r) ^ Z.of_nat k - 1).
Proof.
  intros Hr. induction k as [| k IH].
  - simpl. ring.
  - rewrite Nat2Z.inj_succ. unfold Z.succ.
    rewrite Qpower_plus by lra.
    change ((1 + r) ^ 1) with (1 + r).
    simpl ideal_balance.
    transitivity
      ((r * ideal_balance r payment principal k) * (1 + r) - r * payment);
      [ring |].
    rewrite IH. ring.
Qed.

Lemma ideal_balance_pays_off (r payment principal : Q) (n : Z) :
  0 < r -> (0 < n)%Z ->
  annuity_payment r principal n = Some payment ->
  ideal_balance r payment principal (Z.to_nat n) == 0.
Proof.
  intros Hr Hn E.
  pose proof (ideal_balance_closed_form r payment principal (Z.to_nat n) Hr)
    as C.
  rewrite Z2Nat.id in C by lia.
  pose proof (annuity_identity r principal n Hr Hn payment E) as I.
  nra.
Qed.


(** * The plain loop against the loop with extras *)

Lemma Qgt_bool_comp (x x' y y' : Q) :
  x == x' -> y == y' -> Qgt_bool x y = Qgt_bool x' y'.
Proof. intros E1 E2. unfold Qgt_bool. now rewrite E1, E2. Qed.

Lemma Qle_bool_comp (x x' y y' : Q) :
  x == x' -> y == y' -> Qle_bool x y = Qle_bool x' y'.
Proof. intros E1 E2. now rewrite E1, E2. Qed.

Lemma py_min_above (a b : Q) : b < a -> py_min a b = b.
Proof. intro H. unfold py_min. apply Qgt_bool_true in H. now rewrite H. Qed.

Lemma py_min_le (a b : Q) : py_min a b <= b /\ py_min a b <= a.
Proof.
  unfold py_min. destruct (Qgt_bool a b) eqn:E.
  - apply Qgt_bool_true in E. lra.
  - apply Qgt_bool_false in E. lra.
Qed.

Section LoopsAgree.

Variables (r p p0 e : Q) (lm : option Z) (L : Q).
Hypothesis payment_split : p == p0 + e.
Hypothesis no_lump : L == 0.

Lemma loops_agree (k : nat) :
  forall (month : Z) (b b' : Q),
    b == b' ->
    Forall2 (entries_agree e) (base_loop r p k b)
      (extra_loop r p0 e lm L k month b').
Proof.
  induction k as [| k IH]; intros month b b' Hb; [constructor |].
  cbn [base_loop extra_loop].
  set (x := if is_lump_month lm month then e + L else e).
  assert (Hx : x == e) by (unfold x; destruct (is_lump_month lm month); lra).
  assert (Hc : Qgt_bool (p - b * r) b = Qgt_bool (p0 - b' * r + x) b')
    by (apply Qgt_bool_comp; [rewrite Hb; lra | exact Hb]).
  rewrite Hc.
  destruct (Qgt_bool (p0 - b' * r + x) b') eqn:Hclamp.
  - assert (Hz : Qle_bool (b - b) 0 = true) by (apply Qle_bool_iff; lra).
    assert (Hz' : Qle_bool (b' - b') 0 = true) by (apply Qle_bool_iff; lra).
    rewrite Hz, Hz'.
    constructor; [| constructor].
    apply Qgt_bool_true in Hclamp.
    pose proof (py_min_le (p0 - b' * r) b') as [M1 M2].
    unfold entries_agree; cbn.
    repeat split; try (rewrite Hb; lra).
    intro He. rewrite py_min_above by lra. lra.
  - assert (Hz : Qle_bool (b - (p - b * r)) 0
                 = Qle_bool (b' - (p0 - b' * r + x)) 0)
      by (apply Qle_bool_comp; [rewrite Hb; lra | reflexivity]).
    rewrite Hz.
    assert (Hent : entries_agree e
              (mkBaseEntry (b - (p - b * r)) (b * r) (p - b * r) p)
              (mkExtraEntry (b' - (p0 - b' * r + x)) (b' * r) (p0 - b' * r) x
                 (b' * r + (p0 - b' * r + x)))).
    { unfold entries_agree; cbn.
      repeat split; rewrite ?Hb; lra. }
    destruct (Qle_bool (b' - (p0 - b' * r + x)) 0).
    + constructor; [exact Hent | constructor].
    + constructor; [exact Hent |].
      apply IH. rewrite Hb. lra.
Qed.

End LoopsAgree.

(** The balances of the refinance loop are those of the plain loop. *)
Lemma refi_loop_balances (r pay : Q) (start : Z) (k : nat) :
  forall (m : Z) (b ci cp : Q),
    map r_Balance (refi_loop r pay start k m b ci cp)
    = map be_balance (base_loop r pay k b).
Proof.
  induction k as [| k IH]; intros m b ci cp; [reflexivity |].
  cbn [refi_loop base_loop map r_Balance be_balance].
  f_equal.
  destruct (Qgt_bool (pay - b * r) b);
    match goal with |- context [Qle_bool ?x 0] => destruct (Qle_bool x 0) end;
    try reflexivity; apply IH.
Qed.

(** * Cumulative sums and frames *)

Lemma cumsum_from_length (xs : list Q) :
  forall acc, length (cumsum_from acc xs) = length xs.
Proof. induction xs as [| x xs IH]; intro acc; simpl; [| rewrite IH]; reflexivity. Qed.

Lemma cumsum_length (xs : list Q) : length (cumsum xs) = length xs.
Proof. destruct xs; simpl; [| rewrite cumsum_from_length]; reflexivity. Qed.



Lemma base_frame_length (es : list base_entry) :
  forall month cis cps,
    length cis = length es -> length cps = length es ->
    length (base_frame month es cis cps) = length es.
Proof.
  induction es as [| e es IH]; intros month cis cps H1 H2; [reflexivity |].
  destruct cis, cps; try discriminate. simpl. f_equal. apply IH; simpl in *; lia.
Qed.

Lemma base_frame_balances (es : list base_entry) :
  forall month cis cps,
    length cis = length es -> length cps = length es ->
    map b_Balance (base_frame month es cis cps) = map be_balance es.
Proof.
  induction es as [| e es IH]; intros month cis cps H1 H2; [reflexivity |].
  destruct cis, cps; try discriminate. simpl. f_equal. apply IH; simpl in *; lia.
Qed.

Lemma extra_frame_length (es : list extra_entry) :
  forall month cis cps,
    length cis = length es -> length cps = length es ->
    length (extra_frame month es cis cps) = length es.
Proof.
  induction es as [| e es IH]; intros month cis cps H1 H2; [reflexivity |].
  destruct cis, cps; try discriminate. simpl. f_equal. apply IH; simpl in *; lia.
Qed.

Lemma extra_frame_balances (es : list extra_entry) :
  forall month cis cps,
    length cis = length es -> length cps = length es ->
    map x_Balance (extra_frame month es cis cps) = map xe_balance es.
Proof.
  induction es as [| e es IH]; intros month cis cps H1 H2; [reflexivity |].
  destruct cis, cps; try discriminate. simpl. f_equal. apply IH; simpl in *; lia.
Qed.



Lemma valid_terms_payment (principal rate : Q) (years : Z) :
  valid_terms principal rate years ->
  exists payment,
    calculate_monthly_payment principal rate years = Some payment
    /\ rate / 12 * principal < payment
    /\ ideal_balance (rate / 12) payment principal (Z.to_nat (years * 12))
       == 0.
Proof.
  intros (HP & Hr0 & Hr1 & Hy).
  assert (Hm : 0 < rate / 12) by (apply Qlt_shift_div_l; lra).
  assert (Hn : (0 < years * 12)%Z) by lia.
  unfold calculate_monthly_payment.
  rewrite (annuity_payment_eq _ principal _ Hm Hn).
  eexists. split; [reflexivity |].
  split.
  - apply (annuity_exceeds_interest _ _ _ Hm Hn); [exact HP |].
    apply annuity_payment_eq; assumption.
  - apply ideal_balance_pays_off; try assumption.
    apply annuity_payment_eq; assumption.
Qed.





(** * More extra principal, shorter schedule *)

Section LengthAntitone.

Variables (r p0 e1 e2 : Q) (lm1 lm2 : option Z) (L1 L2 : Q).
Hypothesis r_nonneg : 0 <= r.
Hypothesis extras_le :
  forall month, extra_at e1 lm1 L1 month <= extra_at e2 lm2 L2 month.

Lemma extra_loop_length_antitone (k : nat) :
  forall (month : Z) (b1 b2 : Q),
    b2 <= b1 ->
    (length (extra_loop r p0 e2 lm2 L2 k month b2)
     <= length (extra_loop r p0 e1 lm1 L1 k month b1))%nat.
Proof.
  induction k as [| k IH]; intros month b1 b2 Hb; [apply Nat.le_refl |].
  cbn [extra_loop].
  pose proof (extras_le month) as Hx. unfold extra_at in Hx.
  set (x1 := if is_lump_month lm1 month then e1 + L1 else e1) in *.
  set (x2 := if is_lump_month lm2 month then e2 + L2 else e2) in *.
  destruct (Qgt_bool (p0 - b2 * r + x2) b2) eqn:C2.
  { assert (Hz : Qle_bool (b2 - b2) 0 = true) by (apply Qle_bool_iff; lra).
    rewrite Hz. cbn [length]. lia. }
  apply Qgt_bool_false in C2.
  destruct (Qgt_bool (p0 - b1 * r + x1) b1) eqn:C1.
  { apply Qgt_bool_true in C1. exfalso. nra. }
  apply Qgt_bool_false in C1.
  destruct (Qle_bool (b2 - (p0 - b2 * r + x2)) 0) eqn:Z2;
    [cbn [length]; lia |].
  apply Qle_bool_false in Z2.
  destruct (Qle_bool (b1 - (p0 - b1 * r + x1)) 0) eqn:Z1.
  { apply Qle_bool_iff in Z1. exfalso. nra. }
  cbn [length]. apply le_n_S. apply IH. nra.
Qed.

End LengthAntitone.





(** * A lump sum that covers the balance *)


Section LumpPayoff.

Variables (r p0 e : Q) (m : Z) (L principal : Q).
Hypothesis r_nonneg : 0 <= r.
Hypothesis e_nonneg : 0 <= e.
Hypothesis m_pos : (1 <= m)%Z.
Hypothesis payment_covers_interest : r * principal < p0.


End LumpPayoff.


(** * A refinance of a loan that is already paid off *)

Lemma refi_loop_zero_carry (r pay : Q) (start : Z) (k : nat) (m : Z)
  (b ci cp : Q) :
  b == 0 -> 0 <= pay ->
  (length (refi_loop r pay start k m b ci cp) <= 1)%nat
  /\ ((0 < k)%nat -> length (refi_loop r pay start k m b ci cp) = 1%nat)
  /\ Forall (fun row =>
               r_Month row = (start + m)%Z
               /\ r_Balance row == 0 /\ r_Interest row == 0
               /\ r_Payment row == 0
               /\ r_CumulativeInterest row == ci
               /\ r_CumulativePayment row == cp)
       (refi_loop r pay start k m b ci cp).
Proof.
  intros Hb Hpay. destruct k as [| k].
  - cbn. split; [lia |]. split; [lia | constructor].
  - cbn [refi_loop].
    assert (Hi : b * r == 0) by (rewrite Hb; ring).
    destruct (Qgt_bool (pay - b * r) b) eqn:Hc.
    + assert (Hz : Qle_bool (b - b) 0 = true) by (apply Qle_bool_iff; lra).
      rewrite Hz. cbn. split; [lia |]. split; [reflexivity |].
      constructor; [| constructor]. cbn. repeat split; lra.
    + apply Qgt_bool_false in Hc.
      assert (Hz : Qle_bool (b - (pay - b * r)) 0 = true)
        by (apply Qle_bool_iff; lra).
      rewrite Hz. cbn. split; [lia |]. split; [reflexivity |].
      constructor; [| constructor]. cbn. repeat split; lra.
Qed.

Lemma last_row_cons {A : Type} (a b : A) (rows : list A) :
  last_row (a :: b :: rows) = last_row (b :: rows).
Proof.
  unfold last_row. cbn [length]. rewrite !Nat.sub_succ, !Nat.sub_0_r.
  reflexivity.
Qed.

Lemma final_is_zero_last_row (rows : list extra_row) :
  final_is_zero (map x_Balance rows) ->
  exists pre, last_row rows = Some pre /\ x_Balance pre == 0.
Proof.
  induction rows as [| a rows IH]; [intros [] |].
  destruct rows as [| b rows].
  - cbn. intro H. exists a. split; [reflexivity | exact H].
  - intro H. rewrite last_row_cons. apply IH. exact H.
Qed.

Lemma pre_row_beyond_payoff (rows : list extra_row) (lump_month : Z) :
  rows <> [] -> (Z.of_nat (length rows) < lump_month)%Z ->
  pre_row rows lump_month = last_row rows.
Proof.
  intros Hne Hlen. unfold pre_row, iloc, last_row.
  destruct rows as [| a rows]; [congruence |].
  destruct (Z.leb_spec lump_month (Z.of_nat (length (a :: rows)))); [lia |].
  cbn [Z.leb Z.compare Z.opp].
  destruct (Z.leb_spec (- Z.of_nat (length (a :: rows))) (-1));
    [| cbn [length] in *; lia].
  f_equal. cbn [length]. lia.
Qed.

(** C7 fails as stated: in the scenario principal 1200, rate 0.75, 1 year,
    monthly extra 2000 and refinance month 3, the loan is paid off in month
    1, yet both refinance schedules hold one record (month 4, balance 0,
    interest 0, payment 0) instead of none. *)
Lemma C7_paid_off_counterexample :
  exists sc,
    main_schedules 1200 (3 # 4) (3 # 4) 1 2000 1000 3 0 = Some sc
    /\ length (pre_refi sc) = 1%nat
    /\ final_is_zero (map x_Balance (pre_refi sc))
    /\ length (refi_std sc) = 1%nat
    /\ length (refi_extra sc) = 1%nat
    /\ refi_std sc <> [] /\ refi_extra sc <> [].
Proof.
  eexists. split; [vm_compute; reflexivity |].
  cbn [pre_refi refi_std refi_extra length map x_Balance final_is_zero].
  repeat split; discriminate.
Qed.

(** C7, as amended: when the schedule with extras ends, at balance 0, before
    the chosen refinance month, main reads its last row, and
    amortization_refinance called with that zero balance, those cumulative
    totals and a non-negative payment returns at most one record (exactly one
    when at least one month remains): a record for the month after the
    refinance month with balance 0, interest 0, payment 0 and the
    cumulative totals of the last pre-refinance row unchanged. *)
Theorem C7_noop_refinance (rows : list extra_row) (lump_month : Z)
  (rate years pay : Q) :
  (Z.of_nat (length rows) < lump_month)%Z ->
  final_is_zero (map x_Balance rows) ->
  0 <= pay ->
  exists pre,
    pre_row rows lump_month = Some pre
    /\ last_row rows = Some pre
    /\ x_Balance pre == 0
    /\ (length (amortization_refinance (x_Balance pre) rate years pay
                  lump_month (x_CumulativeInterest pre)
                  (x_CumulativePayment pre)) <= 1)%nat
    /\ ((1 <= py_int (years * 12))%Z ->
        length (amortization_refinance (x_Balance pre) rate years pay
                  lump_month (x_CumulativeInterest pre)
                  (x_CumulativePayment pre)) = 1%nat)
    /\ Forall (noop_row lump_month (x_CumulativeInterest pre)
                 (x_CumulativePayment pre))
         (amortization_refinance (x_Balance pre) rate years pay
            lump_month (x_CumulativeInterest pre) (x_CumulativePayment pre)).
Proof.
  intros Hlen Hfin Hpay.
  destruct (final_is_zero_last_row rows Hfin) as (pre & Hlast & Hzero).
  exists pre.
  assert (Hne : rows <> []) by (intros ->; destruct Hfin).
  rewrite (pre_row_beyond_payoff rows lump_month Hne Hlen).
  do 3 (split; [assumption |]).
  unfold amortization_refinance.
  destruct (refi_loop_zero_carry (rate / 12) pay lump_month
              (Z.to_nat (py_int (years * 12))) 1 (x_Balance pre)
              (x_CumulativeInterest pre) (x_CumulativePayment pre)
              Hzero Hpay) as (H1 & H2 & H3).
  split; [exact H1 |]. split; [intro; apply H2; lia |].
  exact H3.
Qed.

Lemma C7_noop_refinance_witness :
  exists pre,
    pre_row [mkExtraRow 1 0 75 1200 0 1275 75 1275] 3 = Some pre
    /\ last_row [mkExtraRow 1 0 75 1200 0 1275 75 1275] = Some pre
    /\ x_Balance pre == 0
    /\ (length (amortization_refinance (x_Balance pre) (3 # 4) (3 # 4) 1000
                  3 (x_CumulativeInterest pre)
                  (x_CumulativePayment pre)) <= 1)%nat
    /\ ((1 <= py_int ((3 # 4) * 12))%Z ->
        length (amortization_refinance (x_Balance pre) (3 # 4) (3 # 4) 1000
                  3 (x_CumulativeInterest pre)
                  (x_CumulativePayment pre)) = 1%nat)
    /\ Forall (noop_row 3 (x_CumulativeInterest pre)
                 (x_CumulativePayment pre))
         (amortization_refinance (x_Balance pre) (3 # 4) (3 # 4) 1000
            3 (x_CumulativeInterest pre) (x_CumulativePayment pre)).
Proof.
  apply (C7_noop_refinance [mkExtraRow 1 0 75 1200 0 1275 75 1275] 3
           (3 # 4) (3 # 4) 1000).
  - reflexivity.
  - reflexivity.
  - discriminate.
Defined.

(** * The loop bound of a refinance *)




(** * The accounting identity *)






(** * Balances are never negative *)

Lemma base_loop_nonneg (r pay : Q) (k : nat) :
  forall b, Forall (fun x => 0 <= x) (map be_balance (base_loop r pay k b)).
Proof.
  induction k as [| k IH]; intro b; [constructor |].
  cbn [base_loop].
  destruct (Qgt_bool (pay - b * r) b) eqn:Hc;
    [| apply Qgt_bool_false in Hc];
    match goal with |- context [Qle_bool ?x 0] => destruct (Qle_bool x 0) end;
    cbn [map be_balance]; constructor; try lra; first [constructor | apply IH].
Qed.

Lemma extra_loop_nonneg (r p0 e : Q) (lm : option Z) (L : Q) (k : nat) :
  forall month b,
    Forall (fun x => 0 <= x)
      (map xe_balance (extra_loop r p0 e lm L k month b)).
Proof.
  induction k as [| k IH]; intros month b; [constructor |].
  cbn [extra_loop].
  set (x := if is_lump_month lm month then e + L else e).
  destruct (Qgt_bool (p0 - b * r + x) b) eqn:Hc;
    [| apply Qgt_bool_false in Hc];
    match goal with |- context [Qle_bool ?y 0] => destruct (Qle_bool y 0) end;
    cbn [map xe_balance]; constructor; try lra; first [constructor | apply IH].
Qed.

(** X1: whatever the inputs, no record of any of the three schedule
    producers shows a negative closing balance: the clamp of the payoff
    month floors the balance at 0. *)
Theorem X1_balances_never_negative (principal rate : Q) (years : Z) (e : Q)
  (lm : option Z) (L : Q) (carry new_rate rem pay : Q) (start : Z)
  (ci cp : Q) :
  match amortization_schedule principal rate years with
  | Some bs => Forall (fun row => 0 <= b_Balance row) bs
  | None => True
  end
  /\ match amortization_schedule_with_payoffs principal rate years e lm L with
     | Some xs => Forall (fun row => 0 <= x_Balance row) xs
     | None => True
     end
  /\ Forall (fun row => 0 <= r_Balance row)
       (amortization_refinance carry new_rate rem pay start ci cp).
Proof.
  unfold amortization_schedule, amortization_schedule_with_payoffs,
    amortization_refinance.
  split; [| split].
  - destruct (calculate_monthly_payment principal rate years) as [p |];
      [| exact I].
    cbn zeta. apply Forall_map.
    rewrite base_frame_balances
      by (rewrite cumsum_length, length_map; reflexivity).
    apply base_loop_nonneg.
  - destruct (calculate_monthly_payment principal rate years) as [p |];
      [| exact I].
    cbn zeta. apply Forall_map.
    rewrite extra_frame_balances
      by (rewrite cumsum_length, length_map; reflexivity).
    apply extra_loop_nonneg.
  - apply Forall_map. rewrite refi_loop_balances. apply base_loop_nonneg.
Qed.

(** * Month numbering and schedule length *)

Lemma base_loop_length_le (r pay : Q) (k : nat) :
  forall b, (length (base_loop r pay k b) <= k)%nat.
Proof.
  induction k as [| k IH]; intro b; [apply Nat.le_refl |].
  cbn [base_loop length].
  match goal with |- context [Qle_bool ?x 0] => destruct (Qle_bool x 0) end.
  - cbn. lia.
  - apply le_n_S, IH.
Qed.

Lemma extra_loop_length_le (r p0 e : Q) (lm : option Z) (L : Q) (k : nat) :
  forall month b, (length (extra_loop r p0 e lm L k month b) <= k)%nat.
Proof.
  induction k as [| k IH]; intros month b; [apply Nat.le_refl |].
  cbn [extra_loop length].
  match goal with |- context [Qle_bool ?x 0] => destruct (Qle_bool x 0) end.
  - cbn. lia.
  - apply le_n_S, IH.
Qed.

Lemma base_frame_months (es : list base_entry) :
  forall month cis cps,
    length cis = length es -> length cps = length es ->
    map b_Month (base_frame month es cis cps) = Zrange month (length es).
Proof.
  induction es as [| e es IH]; intros month cis cps H1 H2; [reflexivity |].
  destruct cis, cps; try discriminate. simpl. f_equal. apply IH; simpl in *; lia.
Qed.

Lemma extra_frame_months (es : list extra_entry) :
  forall month cis cps,
    length cis = length es -> length cps = length es ->
    map x_Month (extra_frame month es cis cps) = Zrange month (length es).
Proof.
  induction es as [| e es IH]; intros month cis cps H1 H2; [reflexivity |].
  destruct cis, cps; try discriminate. simpl. f_equal. apply IH; simpl in *; lia.
Qed.

Lemma refi_loop_months (r pay : Q) (start : Z) (k : nat) :
  forall m b ci cp,
    map r_Month (refi_loop r pay start k m b ci cp)
    = Zrange (start + m) (length (refi_loop r pay start k m b ci cp)).
Proof.
  induction k as [| k IH]; intros m b ci cp; [reflexivity |].
  cbn [refi_loop].
  match goal with |- context [Qle_bool ?x 0] => destruct (Qle_bool x 0) end.
  - reflexivity.
  - cbn [map length Zrange r_Month]. f_equal.
    rewrite IH. f_equal. lia.
Qed.

(** X2: the Month column counts up by one without gaps: from 1 in the two
    simulators, from start_month + 1 in amortization_refinance; and a
    simulator emits at most years * 12 records. *)
Theorem X2_months_count_up (principal rate : Q) (years : Z) (e : Q)
  (lm : option Z) (L : Q) (carry new_rate rem pay : Q) (start : Z)
  (ci cp : Q) :
  match amortization_schedule principal rate years with
  | Some bs =>
      map b_Month bs = Zrange 1 (length bs)
      /\ (length bs <= Z.to_nat (years * 12))%nat
  | None => True
  end
  /\ match amortization_schedule_with_payoffs principal rate years e lm L with
     | Some xs =>
         map x_Month xs = Zrange 1 (length xs)
         /\ (length xs <= Z.to_nat (years * 12))%nat
     | None => True
     end
  /\ map r_Month (amortization_refinance carry new_rate rem pay start ci cp)
     = Zrange (start + 1)
         (length (amortization_refinance carry new_rate rem pay start ci cp)).
Proof.
  unfold amortization_schedule, amortization_schedule_with_payoffs,
    amortization_refinance.
  split; [| split].
  - destruct (calculate_monthly_payment principal rate years) as [p |];
      [| exact I].
    cbn zeta.
    rewrite base_frame_months, base_frame_length
      by (rewrite cumsum_length, length_map; reflexivity).
    split; [reflexivity | apply base_loop_length_le].
  - destruct (calculate_monthly_payment principal rate years) as [p |];
      [| exact I].
    cbn zeta.
    rewrite extra_frame_months, extra_frame_length
      by (rewrite cumsum_length, length_map; reflexivity).
    split; [reflexivity | apply extra_loop_length_le].
  - apply refi_loop_months.
Qed.

(** * Cumulative columns *)








(** * What is paid is interest plus the drop in balance *)



(** * The last entry of a running total *)



(** * A lump-sum month that the loop never reaches *)

Lemma extra_loop_lump_inert (r p0 e : Q) (lm : option Z) (L L' : Q)
  (k : nat) :
  forall month b,
    (forall j, (month <= j < month + Z.of_nat k)%Z ->
               is_lump_month lm j = false) ->
    extra_loop r p0 e lm L k month b = extra_loop r p0 e None L' k month b.
Proof.
  induction k as [| k IH]; intros month b H; [reflexivity |].
  cbn [extra_loop is_lump_month].
  rewrite (H month) by lia.
  rewrite (IH (month + 1)%Z) by (intros j Hj; apply H; lia).
  reflexivity.
Qed.

(** X7: a lump-sum month of 0, a negative one, or one past years * 12 is
    never reached by the loop: the schedule is the one obtained with no
    lump sum at all, whatever the lump-sum amount. *)
Theorem X7_unreached_lump_month_is_inert (principal rate : Q) (years : Z)
  (e : Q) (l : Z) (L : Q) :
  (l <= 0 \/ years * 12 < l)%Z ->
  amortization_schedule_with_payoffs principal rate years e (Some l) L
  = amortization_schedule_with_payoffs principal rate years e None 0.
Proof.
  intro Hl. unfold amortization_schedule_with_payoffs.
  destruct (calculate_monthly_payment principal rate years) as [p |];
    [| reflexivity].
  cbn zeta.
  rewrite (extra_loop_lump_inert (rate / 12) p e (Some l) L 0); [reflexivity |].
  intros j Hj. cbn [is_lump_month].
  destruct (Z.eqb_spec l 0) as [-> | Hn]; [reflexivity |].
  destruct (Z.eqb_spec j l); [lia | reflexivity].
Qed.

Lemma X7_unreached_lump_month_is_inert_witness :
  amortization_schedule_with_payoffs 580000 (427 # 10000) 24 500
    (Some 289%Z) 300000
  = amortization_schedule_with_payoffs 580000 (427 # 10000) 24 500 None 0.
Proof.
  apply (X7_unreached_lump_month_is_inert 580000 (427 # 10000) 24 500 289
           300000).
  right. reflexivity.
Defined.

(** * The unclamped balance stays positive before the term *)

Lemma ideal_balance_positive (r payment principal : Q) (n : Z) (i : nat) :
  0 < r -> 0 < principal -> (Z.of_nat i < n)%Z ->
  annuity_payment r principal n = Some payment ->
  0 < ideal_balance r payment principal i.
Proof.
  intros Hr HP Hi E.
  assert (Hn : (0 < n)%Z) by lia.
  pose proof (ideal_balance_closed_form r payment principal i Hr) as C.
  pose proof (annuity_identity r principal n Hr Hn payment E) as I.
  pose proof (growth_gt_1 r n Hr Hn) as G.
  assert (A : (1 + r) ^ Z.of_nat i < (1 + r) ^ n)
    by (apply Qpower_lt_compat_l; [exact Hi | lra]).
  assert (A1 : 1 <= (1 + r) ^ Z.of_nat i)
    by (apply Qpower_1_le; [lra | lia]).
  set (a := (1 + r) ^ Z.of_nat i) in *.
  set (g := (1 + r) ^ n) in *.
  set (B := ideal_balance r payment principal i) in *.
  assert (K : r * B * (g - 1) == r * principal * (g - a)).
  { transitivity ((r * B) * (g - 1)); [ring |].
    rewrite C.
    transitivity (r * principal * a * (g - 1) - (payment * (g - 1)) * (a - 1));
      [ring |].
    rewrite I. ring. }
  assert (K1 : 0 < r * principal * (g - a)).
  { apply Qmult_lt_0_compat; [| lra].
    apply Qmult_lt_0_compat; assumption. }
  assert (K2 : 0 < r * (g - 1)) by (apply Qmult_lt_0_compat; lra).
  destruct (Qlt_le_dec 0 B) as [Hpos | Hneg]; [exact Hpos | exfalso].
  assert (K3 : B * (r * (g - 1)) <= 0).
  { rewrite <- (Qmult_0_l (r * (g - 1))).
    apply Qmult_le_compat_r; lra. }
  assert (K4 : B * (r * (g - 1)) == r * B * (g - 1)) by ring.
  lra.
Qed.


(** * More extra principal, less interest *)


Section InterestAntitone.

Variables (r p0 e1 e2 : Q) (lm1 lm2 : option Z) (L1 L2 : Q).
Hypothesis r_nonneg : 0 <= r.
Hypothesis extras_le :
  forall month, extra_at e1 lm1 L1 month <= extra_at e2 lm2 L2 month.


End InterestAntitone.




(** * A larger payment shortens a refinance *)

Lemma refi_loop_length_base (r pay : Q) (start : Z) (k : nat) (m : Z)
  (b ci cp : Q) :
  length (refi_loop r pay start k m b ci cp) = length (base_loop r pay k b).
Proof.
  rewrite <- (length_map r_Balance), refi_loop_balances, length_map.
  reflexivity.
Qed.

Lemma base_loop_length_antitone (r pay1 pay2 : Q) (k : nat) (b : Q) :
  0 <= r -> pay1 <= pay2 ->
  (length (base_loop r pay2 k b) <= length (base_loop r pay1 k b))%nat.
Proof.
  intros Hr Hpay.
  rewrite (Forall2_length
             (loops_agree r pay1 pay1 0 None 0 ltac:(ring) ltac:(reflexivity)
                k 1 b b ltac:(reflexivity))).
  rewrite (Forall2_length
             (loops_agree r pay2 pay1 (pay2 - pay1) None 0 ltac:(ring)
                ltac:(reflexivity) k 1 b b ltac:(reflexivity))).
  apply extra_loop_length_antitone; [exact Hr | | lra].
  intro month. unfold extra_at. cbn [is_lump_month]. lra.
Qed.

(** X10: with a non-negative rate, raising the monthly payment handed to
    amortization_refinance never yields more records, whatever the carried
    balance, the term, the start month and the cumulative offsets. *)
Theorem X10_refinance_larger_payment_not_longer (principal rate years : Q)
  (pay1 pay2 : Q) (start : Z) (ci cp : Q) :
  0 <= rate -> pay1 <= pay2 ->
  (length (amortization_refinance principal rate years pay2 start ci cp)
   <= length (amortization_refinance principal rate years pay1 start ci cp))
  %nat.
Proof.
  intros Hr Hpay. unfold amortization_refinance.
  rewrite !refi_loop_length_base.
  apply base_loop_length_antitone; [apply Qle_shift_div_l; lra | exact Hpay].
Qed.

Lemma X10_refinance_larger_payment_not_longer_witness :
  (length (amortization_refinance 1600 (3 # 4) (1 # 4) 1000 0 0 0)
   <= length (amortization_refinance 1600 (3 # 4) (1 # 4) 50 0 0 0))%nat.
Proof.
  apply (X10_refinance_larger_payment_not_longer 1600 (3 # 4) (1 # 4)
           50 1000 0 0 0).
  - discriminate.
  - discriminate.
Defined.

(** * The refinance scenario of main *)

Lemma pre_row_wraps (rows : list extra_row) (lump_month : Z) :
  rows <> [] ->
  (lump_month = 0 \/ Z.of_nat (length rows) < lump_month)%Z ->
  pre_row rows lump_month = last_row rows.
Proof.
  intros Hne [-> | Hlen]; [| now apply pre_row_beyond_payoff].
  unfold pre_row, iloc, last_row.
  destruct rows as [| a rows]; [congruence |].
  destruct (Z.leb_spec 0 (Z.of_nat (length (a :: rows)))); [| lia].
  cbn [Z.sub Z.add Z.opp Z.leb Z.compare].
  destruct (Z.leb_spec (- Z.of_nat (length (a :: rows))) (-1));
    [| cbn [length] in *; lia].
  f_equal. cbn [length]. lia.
Qed.



(** * Only the final record can be clamped *)

Lemma before_final_cons {A : Type} (P : A -> Prop) (a : A) (l : list A) :
  (l <> [] -> P a) -> before_final P l -> before_final P (a :: l).
Proof.
  intros Ha Hl. destruct l as [| b l]; [exact I |].
  split; [apply Ha; discriminate | exact Hl].
Qed.

Lemma base_loop_unclamped (r pay : Q) (k : nat) :
  forall b,
    before_final (fun e => be_payment e = pay
                           /\ be_principal e = pay - be_interest e)
      (base_loop r pay k b).
Proof.
  induction k as [| k IH]; intro b; [exact I |].
  cbn [base_loop]. apply before_final_cons.
  - destruct (Qgt_bool (pay - b * r) b) eqn:Hc.
    + assert (Hz : Qle_bool (b - b) 0 = true) by (apply Qle_bool_iff; lra).
      rewrite Hz. congruence.
    + intros _. cbn. split; reflexivity.
  - match goal with |- context [Qle_bool ?x 0] => destruct (Qle_bool x 0) end;
      [exact I | apply IH].
Qed.

Lemma refi_loop_unclamped (r pay : Q) (start : Z) (k : nat) :
  forall m b ci cp,
    before_final (fun row => r_Payment row = pay)
      (refi_loop r pay start k m b ci cp).
Proof.
  induction k as [| k IH]; intros m b ci cp; [exact I |].
  cbn [refi_loop]. apply before_final_cons.
  - destruct (Qgt_bool (pay - b * r) b) eqn:Hc.
    + assert (Hz : Qle_bool (b - b) 0 = true) by (apply Qle_bool_iff; lra).
      rewrite Hz. congruence.
    + intros _. reflexivity.
  - match goal with |- context [Qle_bool ?x 0] => destruct (Qle_bool x 0) end;
      [exact I | apply IH].
Qed.

Lemma base_frame_before_final (P : base_entry -> Prop)
  (R : base_row -> Prop) (es : list base_entry) :
  (forall month e ci cp,
      P e ->
      R (mkBaseRow month (be_balance e) (be_interest e) (be_principal e)
           (be_payment e) ci cp)) ->
  before_final P es ->
  forall month cis cps,
    length cis = length es -> length cps = length es ->
    before_final R (base_frame month es cis cps).
Proof.
  intros HPR. induction es as [| e es IH]; intros H month cis cps H1 H2;
    [exact I |].
  destruct cis as [| ci cis], cps as [| cp cps]; try discriminate.
  cbn [base_frame]. apply before_final_cons.
  - intro Hne. apply HPR. destruct es as [| e' es]; [| apply H].
    exfalso. apply Hne. reflexivity.
  - apply IH; [| simpl in *; lia | simpl in *; lia].
    destruct es as [| e' es]; [exact I | apply H].
Qed.


(** * Degenerate terms *)



(** * Cumulative totals never go down *)








(** * Which row main reads at the refinance month *)

Lemma Zrange_nth (len : nat) :
  forall start i z, nth_error (Zrange start len) i = Some z ->
                    z = (start + Z.of_nat i)%Z.
Proof.
  induction len as [| len IH]; intros start i z H.
  - destruct i; discriminate.
  - destruct i as [| i].
    + cbn in H. injection H as <-. lia.
    + cbn [Zrange nth_error] in H. rewrite (IH _ _ _ H). lia.
Qed.

(** X18: on a frame whose months count up from 1, as every schedule with
    extras does, main reads at a refinance month between 1 and the number
    of records the record of that very month; at refinance month 0, or one
    past the last record, it reads the last record; and on an empty frame
    it raises. *)
Theorem X18_row_read_at_refinance_month (rows : list extra_row)
  (lump_month : Z) :
  map x_Month rows = Zrange 1 (length rows) ->
  ((1 <= lump_month <= Z.of_nat (length rows))%Z ->
   exists pre, pre_row rows lump_month = Some pre
               /\ x_Month pre = lump_month)
  /\ (rows <> [] ->
      (lump_month = 0 \/ Z.of_nat (length rows) < lump_month)%Z ->
      pre_row rows lump_month = last_row rows)
  /\ (rows = [] -> pre_row rows lump_month = None).
Proof.
  intro Hmonths. split; [| split].
  - intro Hl. unfold pre_row, iloc.
    destruct (Z.leb_spec lump_month (Z.of_nat (length rows))); [| lia].
    destruct (Z.leb_spec 0 (lump_month - 1)); [| lia].
    destruct (nth_error rows (Z.to_nat (lump_month - 1))) as [pre |] eqn:E.
    + exists pre. split; [reflexivity |].
      pose proof (map_nth_error x_Month _ _ E) as M.
      rewrite Hmonths in M. apply Zrange_nth in M. lia.
    + apply nth_error_None in E. lia.
  - intros Hne Hl. now apply pre_row_wraps.
  - intros ->. unfold pre_row, iloc. cbn [length Z.of_nat Z.opp].
    destruct (Z.leb_spec lump_month 0).
    + destruct (Z.leb_spec 0 (lump_month - 1)); [lia |]. reflexivity.
    + reflexivity.
Qed.

Lemma X18_row_read_at_refinance_month_witness :
  (exists pre,
      pre_row [mkExtraRow 1 700 75 70 430 575 75 575;
               mkExtraRow 2 0 44 101 599 744 119 1319] 1 = Some pre
      /\ x_Month pre = 1%Z)
  /\ pre_row [mkExtraRow 1 700 75 70 430 575 75 575;
              mkExtraRow 2 0 44 101 599 744 119 1319] 0
     = last_row [mkExtraRow 1 700 75 70 430 575 75 575;
                 mkExtraRow 2 0 44 101 599 744 119 1319].
Proof.
  pose proof (X18_row_read_at_refinance_month
                [mkExtraRow 1 700 75 70 430 575 75 575;
                 mkExtraRow 2 0 44 101 599 744 119 1319]) as H.
  split.
  - apply (H 1%Z); [reflexivity |]. split; discriminate.
  - apply (H 0%Z); [reflexivity | discriminate | left; reflexivity].
Defined.

(** * Months before the lump sum *)

Lemma extra_loop_prefix (r p0 e : Q) (m : Z) (L L' : Q) (d : nat) :
  forall k month b,
    (month + Z.of_nat d <= m)%Z ->
    firstn d (extra_loop r p0 e (Some m) L k month b)
    = firstn d (extra_loop r p0 e (Some m) L' k month b).
Proof.
  induction d as [| d IH]; intros k month b H; [reflexivity |].
  destruct k as [| k]; [reflexivity |].
  cbn [extra_loop is_lump_month].
  assert (Hm : (month =? m)%Z = false) by (apply Z.eqb_neq; lia).
  rewrite Hm, andb_false_r.
  cbn [firstn]. f_equal.
  match goal with |- context [Qle_bool ?x 0] => destruct (Qle_bool x 0) end;
    [reflexivity |].
  apply IH. lia.
Qed.

Lemma cumsum_from_firstn (d : nat) :
  forall acc xs,
    firstn d (cumsum_from acc xs) = cumsum_from acc (firstn d xs).
Proof.
  induction d as [| d IH]; intros acc xs; [reflexivity |].
  destruct xs as [| x xs]; [reflexivity |].
  cbn. f_equal. apply IH.
Qed.

Lemma cumsum_firstn (d : nat) (xs : list Q) :
  firstn d (cumsum xs) = cumsum (firstn d xs).
Proof.
  destruct d as [| d]; [reflexivity |].
  destruct xs as [| x xs]; [reflexivity |].
  cbn. f_equal. apply cumsum_from_firstn.
Qed.

Lemma extra_frame_firstn (d : nat) :
  forall month es cis cps,
    length cis = length es -> length cps = length es ->
    firstn d (extra_frame month es cis cps)
    = extra_frame month (firstn d es) (firstn d cis) (firstn d cps).
Proof.
  induction d as [| d IH]; intros month es cis cps H1 H2; [reflexivity |].
  destruct es as [| e es], cis as [| ci cis], cps as [| cp cps];
    try discriminate; [reflexivity |].
  cbn. f_equal. apply IH; simpl in *; lia.
Qed.

(** X19: the records of the months before the lump-sum month do not depend
    on the lump-sum amount: two calls of amortization_schedule_with_payoffs
    that differ only in that amount raise together or return schedules with
    the same first lump_sum_month - 1 records. *)
Theorem X19_lump_sum_leaves_earlier_months (principal rate : Q) (years : Z)
  (e : Q) (m : Z) (L L' : Q) :
  match amortization_schedule_with_payoffs principal rate years e (Some m) L,
        amortization_schedule_with_payoffs principal rate years e (Some m) L'
  with
  | Some xs, Some xs' =>
      firstn (Z.to_nat (m - 1)) xs = firstn (Z.to_nat (m - 1)) xs'
  | None, None => True
  | _, _ => False
  end.
Proof.
  unfold amortization_schedule_with_payoffs.
  destruct (calculate_monthly_payment principal rate years) as [p |];
    [| exact I].
  cbn zeta.
  rewrite !extra_frame_firstn
    by (rewrite cumsum_length, length_map; reflexivity).
  rewrite !cumsum_firstn, !firstn_map.
  destruct (Z.le_gt_cases m 1) as [Hm | Hm].
  - replace (Z.to_nat (m - 1)) with O by lia. reflexivity.
  - rewrite (extra_loop_prefix (rate / 12) p e m L L' (Z.to_nat (m - 1)))
      by lia.
    reflexivity.
Qed.

(** * The schedule invariant that rounding preserves *)

Lemma base_loop_stops (r pay : Q) (k : nat) :
  forall b, stops_at_zero k (map be_balance (base_loop r pay k b)).
Proof.
  induction k as [| k IH]; intro b.
  - split; [exact I | cbn; lia].
  - cbn [base_loop].
    destruct (Qgt_bool (pay - b * r) b) eqn:Hc;
      [| apply Qgt_bool_false in Hc].
    + assert (Hz : Qle_bool (b - b) 0 = true) by (apply Qle_bool_iff; lra).
      rewrite Hz. split; [exact I |]. intros _. cbn. lra.
    + destruct (Qle_bool (b - (pay - b * r)) 0) eqn:Hz.
      * apply Qle_bool_iff in Hz. split; [exact I |]. intros _. cbn. lra.
      * apply Qle_bool_false in Hz.
        destruct (IH (b - (pay - b * r))) as [I1 I2].
        cbn [map be_balance].
        destruct (map be_balance (base_loop r pay k (b - (pay - b * r))))
          as [| c cs] eqn:E.
        -- split; [exact I |]. cbn. intro H.
           destruct k; [lia |]. discriminate E.
        -- split; [split; [exact Hz | exact I1] |].
           intro H. apply I2. cbn [length] in *. lia.
Qed.

Lemma extra_loop_stops (r p0 e : Q) (lm : option Z) (L : Q) (k : nat) :
  forall month b,
    stops_at_zero k (map xe_balance (extra_loop r p0 e lm L k month b)).
Proof.
  induction k as [| k IH]; intros month b.
  - split; [exact I | cbn; lia].
  - cbn [extra_loop].
    set (x := if is_lump_month lm month then e + L else e).
    destruct (Qgt_bool (p0 - b * r + x) b) eqn:Hc;
      [| apply Qgt_bool_false in Hc].
    + assert (Hz : Qle_bool (b - b) 0 = true) by (apply Qle_bool_iff; lra).
      rewrite Hz. split; [exact I |]. intros _. cbn. lra.
    + destruct (Qle_bool (b - (p0 - b * r + x)) 0) eqn:Hz.
      * apply Qle_bool_iff in Hz. split; [exact I |]. intros _. cbn. lra.
      * apply Qle_bool_false in Hz.
        destruct (IH (month + 1)%Z (b - (p0 - b * r + x))) as [I1 I2].
        cbn [map xe_balance].
        destruct (map xe_balance
                    (extra_loop r p0 e lm L k (month + 1)
                       (b - (p0 - b * r + x)))) as [| c cs] eqn:E.
        -- split; [exact I |]. cbn. intro H.
           destruct k; [lia |]. discriminate E.
        -- split; [split; [exact Hz | exact I1] |].
           intro H. apply I2. cbn [length] in *. lia.
Qed.

Lemma non_increasing_cons (x y : Q) (l : list Q) :
  y <= x -> non_increasing (y :: l) -> non_increasing (x :: y :: l).
Proof. intros H1 H2. split; assumption. Qed.

Lemma base_loop_non_increasing (r pay cap : Q) (k : nat) :
  0 <= r -> cap * r <= pay ->
  forall b,
    0 <= b -> b <= cap ->
    non_increasing (b :: map be_balance (base_loop r pay k b)).
Proof.
  intros Hr Hpay. induction k as [| k IH]; intros b Hb Hcap; [exact I |].
  cbn [base_loop].
  assert (Hi : b * r <= pay) by nra.
  destruct (Qgt_bool (pay - b * r) b) eqn:Hc;
    [| apply Qgt_bool_false in Hc];
    match goal with |- context [Qle_bool ?x 0] => destruct (Qle_bool x 0) end;
    cbn [map be_balance];
    try (split; [lra | exact I]).
  - apply non_increasing_cons; [lra | apply IH; lra].
  - apply non_increasing_cons; [lra | apply IH; lra].
Qed.

Lemma extra_loop_non_increasing (r p0 e : Q) (lm : option Z) (L cap : Q)
  (k : nat) :
  0 <= r -> cap * r <= p0 -> 0 <= e -> 0 <= L ->
  forall month b,
    0 <= b -> b <= cap ->
    non_increasing (b :: map xe_balance (extra_loop r p0 e lm L k month b)).
Proof.
  intros Hr Hpay He HL.
  induction k as [| k IH]; intros month b Hb Hcap; [exact I |].
  cbn [extra_loop].
  assert (Hi : b * r <= p0) by nra.
  assert (Hx : 0 <= (if is_lump_month lm month then e + L else e))
    by (destruct (is_lump_month lm month); lra).
  set (x := if is_lump_month lm month then e + L else e) in *.
  destruct (Qgt_bool (p0 - b * r + x) b) eqn:Hc;
    [| apply Qgt_bool_false in Hc];
    match goal with |- context [Qle_bool ?y 0] => destruct (Qle_bool y 0) end;
    cbn [map xe_balance];
    try (split; [lra | exact I]).
  - apply non_increasing_cons; [lra | apply IH; lra].
  - apply non_increasing_cons; [lra | apply IH; lra].
Qed.

(** C1, as amended.  In every schedule of the three producers, whatever
    the inputs, no record follows one whose closing balance is 0 (every
    balance before the final one is positive), and a schedule that stops
    before its bound on months ends on a closing balance of exactly 0.  For
    valid loan terms and non-negative extra amounts the closing balances of
    amortization_schedule and amortization_schedule_with_payoffs never
    increase from record to record, starting from the principal; those of
    amortization_refinance never increase when the carried balance and the
    rate are not negative and the monthly payment covers the first month's
    interest.  (That the decrease is strict and that a schedule running its
    full term ends on exactly 0 hold in exact arithmetic only.) *)
Theorem C1_schedule_invariant (principal rate : Q) (years : Z) (e : Q)
  (lm : option Z) (L : Q) (carry new_rate rem pay : Q) (start : Z)
  (ci cp : Q) :
  (match amortization_schedule principal rate years with
   | Some bs => stops_at_zero (Z.to_nat (years * 12)) (map b_Balance bs)
   | None => True
   end
   /\ match amortization_schedule_with_payoffs principal rate years e lm L
      with
      | Some xs => stops_at_zero (Z.to_nat (years * 12)) (map x_Balance xs)
      | None => True
      end
   /\ stops_at_zero (Z.to_nat (py_int (rem * 12)))
        (map r_Balance
           (amortization_refinance carry new_rate rem pay start ci cp)))
  /\ (valid_terms principal rate years -> 0 <= e -> 0 <= L ->
      match amortization_schedule principal rate years with
      | Some bs => non_increasing (principal :: map b_Balance bs)
      | None => True
      end
      /\ match amortization_schedule_with_payoffs principal rate years e lm L
         with
         | Some xs => non_increasing (principal :: map x_Balance xs)
         | None => True
         end)
  /\ (0 <= carry -> 0 <= new_rate -> carry * (new_rate / 12) <= pay ->
      non_increasing
        (carry
         :: map r_Balance
              (amortization_refinance carry new_rate rem pay start ci cp))).
Proof.
  unfold amortization_schedule, amortization_schedule_with_payoffs,
    amortization_refinance.
  split; [| split].
  - split; [| split].
    + destruct (calculate_monthly_payment principal rate years) as [p |];
        [| exact I].
      cbn zeta.
      rewrite base_frame_balances
        by (rewrite cumsum_length, length_map; reflexivity).
      apply base_loop_stops.
    + destruct (calculate_monthly_payment principal rate years) as [p |];
        [| exact I].
      cbn zeta.
      rewrite extra_frame_balances
        by (rewrite cumsum_length, length_map; reflexivity).
      apply extra_loop_stops.
    + rewrite refi_loop_balances. apply base_loop_stops.
  - intros V He HL.
    destruct (valid_terms_payment _ _ _ V) as (std & E & Hstd & _).
    destruct V as (HP & Hr0 & Hr1 & Hy).
    assert (Hm : 0 <= rate / 12) by (apply Qle_shift_div_l; lra).
    rewrite E. cbn zeta.
    rewrite base_frame_balances, extra_frame_balances
      by (rewrite cumsum_length, length_map; reflexivity).
    split.
    + apply base_loop_non_increasing with (cap := principal); lra.
    + apply extra_loop_non_increasing with (cap := principal); lra.
  - intros Hc Hr Hpay.
    rewrite refi_loop_balances.
    apply base_loop_non_increasing with (cap := carry);
      [apply Qle_shift_div_l; lra | exact Hpay | exact Hc | lra].
Qed.

Lemma C1_schedule_invariant_witness :
  (valid_terms 580000 (427 # 10000) 24 /\ 0 <= 500 /\ 0 <= 300000)
  /\ (0 <= 1600 /\ 0 <= 3 # 4 /\ 1600 * ((3 # 4) / 12) <= 100)
  /\ match amortization_schedule 580000 (427 # 10000) 24 with
     | Some bs => non_increasing (580000 :: map b_Balance bs)
     | None => True
     end
  /\ non_increasing
       (1600
        :: map r_Balance
             (amortization_refinance 1600 (3 # 4) (1 # 4) 100 0 0 0)).
Proof.
  destruct (C1_schedule_invariant 580000 (427 # 10000) 24 500 (Some 1%Z)
              300000 1600 (3 # 4) (1 # 4) 100 0 0 0) as (_ & M & R).
  assert (V : valid_terms 580000 (427 # 10000) 24)
    by (unfold valid_terms; repeat split).
  assert (He : 0 <= 500) by discriminate.
  assert (HL : 0 <= 300000) by discriminate.
  assert (Hc : 0 <= 1600) by discriminate.
  assert (Hr : 0 <= 3 # 4) by discriminate.
  assert (Hp : 1600 * ((3 # 4) / 12) <= 100) by discriminate.
  split; [repeat split; assumption |].
  split; [repeat split; assumption |].
  split; [destruct (M V He HL) as [M1 _]; exact M1 | exact (R Hc Hr Hp)].
Defined.

(** C1 fails as stated, in binary64 as the code runs.
    amortization_refinance(1600, 0.75, 0.25, 50, 0, 0, 0) charges 100 of
    interest against a payment of 50: its closing balances are 1650,
    1703.125 and 1759.5703125, rising and never 0.
    amortization_schedule(100000, 0.035, 1) runs its 12 months and ends on a
    closing balance of 5.675e-10, not 0.
    amortization_schedule(1200, 0.75, 52) has a standard payment equal to
    the monthly interest, 75: all its 624 closing balances are 1200, so the
    balance does not strictly decrease. *)
Lemma C1_binary64_counterexample :
  (exists rows,
      B64.amortization_refinance 1600 0.75 0.25 50 0 0 0 = B64.Value rows
      /\ map B64.r_Balance rows = [1650; 1703.125; 1759.5703125]%float
      /\ ~ payoff_invariant (map B64.exact (map B64.r_Balance rows)))
  /\ (exists rows,
         B64.amortization_schedule B64.pow_nearest 100000 0.035 1
         = B64.Value rows
         /\ length rows = 12%nat
         /\ last (map B64.b_Balance rows) 0%float
            = 5.6752469390630722e-10%float
         /\ ~ final_is_zero (map B64.exact (map B64.b_Balance rows)))
  /\ (exists rows,
         B64.amortization_schedule B64.pow_nearest 1200 0.75 52
         = B64.Value rows
         /\ length rows = 624%nat
         /\ forallb (fun b => PrimFloat.eqb b 1200) (map B64.b_Balance rows)
            = true
         /\ ~ strictly_decreasing
                (map B64.exact (firstn 2 (map B64.b_Balance rows)))).
Proof.
  split; [| split].
  - eexists. split; [vm_compute; reflexivity |].
    split; [vm_compute; reflexivity |].
    intros [H _]. vm_compute in H. destruct H as [H _]. apply H. reflexivity.
  - eexists. split; [vm_compute; reflexivity |].
    split; [vm_compute; reflexivity |].
    split; [vm_compute; reflexivity |].
    intro H. vm_compute in H. discriminate H.
  - eexists. split; [vm_compute; reflexivity |].
    split; [vm_compute; reflexivity |].
    split; [vm_compute; reflexivity |].
    intro H. vm_compute in H. destruct H as [H _]. discriminate H.
Qed.

(** * The standard payment in binary64 *)

Section FloatFacts.

Local Open Scope float_scope.








End FloatFacts.

Section PaymentFacts.

Local Open Scope float_scope.

Variable libm_pow : float -> float -> float.






End PaymentFacts.







(** * The loop bound of the refinance, in binary64 *)






(** * The first record of a refinance *)

(** C6, as amended.  When amortization_refinance is called with a positive
    carried balance and its loop runs at least once, the first record's
    month is start_month + 1, its interest is the carried balance times the
    monthly rate, its cumulative interest is cum_interest_offset plus that
    interest and its cumulative payment is cum_payment_offset plus the
    month's payment; with a non-negative rate the cumulative interest is at
    least the offset.  (It need not be strictly greater when the interest
    is positive.) *)
Theorem C6_stitch_continuity (principal rate years pay : Q) (start : Z)
  (ci cp : Q) :
  0 < principal -> (1 <= py_int (years * 12))%Z ->
  exists row rest,
    amortization_refinance principal rate years pay start ci cp = row :: rest
    /\ r_Month row = (start + 1)%Z
    /\ r_Interest row = principal * (rate / 12)
    /\ r_CumulativeInterest row = ci + r_Interest row
    /\ r_CumulativePayment row = cp + r_Payment row
    /\ (0 <= rate -> ci <= r_CumulativeInterest row).
Proof.
  intros HP Hn. unfold amortization_refinance.
  destruct (Z.to_nat (py_int (years * 12))) as [| k] eqn:Hk; [lia |].
  cbn [refi_loop].
  do 2 eexists. split; [reflexivity |]. cbn.
  repeat split.
  intro Hr. assert (0 <= rate / 12) by (apply Qle_shift_div_l; lra). nra.
Qed.

Lemma C6_stitch_continuity_witness :
  exists row rest,
    amortization_refinance 1600 (3 # 4) (1 # 4) 50 7 10 20 = row :: rest
    /\ r_Month row = 8%Z
    /\ r_Interest row = 1600 * ((3 # 4) / 12)
    /\ r_CumulativeInterest row = 10 + r_Interest row
    /\ r_CumulativePayment row = 20 + r_Payment row
    /\ (0 <= 3 # 4 -> 10 <= r_CumulativeInterest row).
Proof.
  apply (C6_stitch_continuity 1600 (3 # 4) (1 # 4) 50 7 10 20).
  - reflexivity.
  - discriminate.
Defined.

(** C6 fails as stated, in binary64 as the code runs: the cumulative
    interest of the first record need not be strictly greater than the
    offset when the month's interest is not zero.
    amortization_refinance(1e-10, 0.0477, 1, 1, 0, 20000, 0) carries a
    positive balance and charges a first month's interest of 3.975e-13,
    which is positive; the sum 20000 + 3.975e-13 rounds to 20000, so the
    record's cumulative interest equals the offset. *)
Lemma C6_absorbed_interest_counterexample :
  exists row rest,
    B64.amortization_refinance 1e-10 0.0477 1 1 0 20000 0
    = B64.Value (row :: rest)
    /\ (0 <? 1e-10)%float = true
    /\ (0 <? B64.r_Interest row)%float = true
    /\ B64.r_Interest row = 3.975e-13%float
    /\ B64.r_CumulativeInterest row = 20000%float.
Proof. do 2 eexists. repeat split; vm_compute; reflexivity. Qed.

(** * The default strategy against the baseline, without the payment *)





(** * How each record is computed *)

Lemma base_loop_record_ok (r pay : Q) (k : nat) :
  forall b,
    each_from be_balance
      (fun opening e =>
         base_record_ok pay opening
           (mkBaseRow 0 (be_balance e) (be_interest e) (be_principal e)
              (be_payment e) 0 0))
      b (base_loop r pay k b).
Proof.
  induction k as [| k IH]; intro b; [exact I |].
  cbn [base_loop].
  destruct (Qgt_bool (pay - b * r) b);
    match goal with |- context [Qle_bool ?x 0] => destruct (Qle_bool x 0) end;
    cbn [each_from be_balance]; (split; [| try exact I; try apply IH]);
    unfold base_record_ok; cbn;
    (split; [reflexivity |]); [right | right | left | left];
    split; reflexivity.
Qed.

Lemma base_frame_record_ok (pay : Q) (es : list base_entry) :
  forall opening month cis cps,
    each_from be_balance
      (fun opening e =>
         base_record_ok pay opening
           (mkBaseRow 0 (be_balance e) (be_interest e) (be_principal e)
              (be_payment e) 0 0))
      opening es ->
    each_from b_Balance (base_record_ok pay) opening
      (base_frame month es cis cps).
Proof.
  induction es as [| e es IH]; intros opening month cis cps H; [exact I |].
  destruct cis, cps; try exact I.
  destruct H as [H1 H2]. split; [exact H1 | apply IH, H2].
Qed.

Lemma extra_loop_record_ok (r p0 e : Q) (lm : option Z) (L : Q) (k : nat) :
  0 <= e -> 0 <= L ->
  forall month b,
    each_from xe_balance
      (fun opening x =>
         extra_record_ok opening
           (mkExtraRow 0 (xe_balance x) (xe_interest x)
              (xe_sched_principal x) (xe_extra x) (xe_payment x) 0 0))
      b (extra_loop r p0 e lm L k month b).
Proof.
  intros He HL. induction k as [| k IH]; intros month b; [exact I |].
  cbn [extra_loop].
  assert (Hx : 0 <= (if is_lump_month lm month then e + L else e))
    by (destruct (is_lump_month lm month); lra).
  set (x := if is_lump_month lm month then e + L else e) in *.
  pose proof (py_min_le (p0 - b * r) b) as [M1 M2].
  destruct (Qgt_bool (p0 - b * r + x) b) eqn:Hc;
    match goal with |- context [Qle_bool ?y 0] => destruct (Qle_bool y 0) end;
    cbn [each_from xe_balance]; (split; [| try exact I; try apply IH]);
    unfold extra_record_ok; cbn;
    (split; [lra |]); [right | right | left | left];
    repeat split; lra.
Qed.

Lemma extra_frame_record_ok (es : list extra_entry) :
  forall opening month cis cps,
    each_from xe_balance
      (fun opening x =>
         extra_record_ok opening
           (mkExtraRow 0 (xe_balance x) (xe_interest x)
              (xe_sched_principal x) (xe_extra x) (xe_payment x) 0 0))
      opening es ->
    each_from x_Balance extra_record_ok opening
      (extra_frame month es cis cps).
Proof.
  induction es as [| e es IH]; intros opening month cis cps H; [exact I |].
  destruct cis, cps; try exact I.
  destruct H as [H1 H2]. split; [exact H1 | apply IH, H2].
Qed.

Lemma refi_loop_record_ok (r pay : Q) (start : Z) (k : nat) :
  forall m b ci cp,
    each_from r_Balance (refi_record_ok pay) b
      (refi_loop r pay start k m b ci cp).
Proof.
  induction k as [| k IH]; intros m b ci cp; [exact I |].
  cbn [refi_loop].
  destruct (Qgt_bool (pay - b * r) b);
    match goal with |- context [Qle_bool ?x 0] => destruct (Qle_bool x 0) end;
    cbn [each_from r_Balance]; (split; [| try exact I; try apply IH]);
    unfold refi_record_ok; cbn; [right | right | left | left];
    split; lra.
Qed.

(** C10, as amended.  Along every schedule, with each record read against
    the balance it opened on (the principal, then the previous closing
    balance):
    - a baseline record closes on the opening balance less its principal; in
      an ordinary month its payment is the standard payment and its
      principal is that payment less the interest, and in the clamped payoff
      month its principal is the opening balance and its payment is interest
      + principal;
    - with non-negative extra amounts, a record of the extras variant has
      extraPrincipal >= 0; in an ordinary month its payment is interest +
      (scheduledPrincipal + extraPrincipal), it closes on the opening
      balance less that principal, and scheduledPrincipal <=
      scheduledPrincipal + extraPrincipal; in the clamped payoff month its
      payment is interest + the opening balance, it closes on 0,
      extraPrincipal is the opening balance less scheduledPrincipal, and
      scheduledPrincipal is at most the opening balance, the principal
      paid;
    - a refinance record either pays the monthly payment and closes on
      the opening balance less (payment - interest), or pays interest + the
      opening balance and closes on 0.
    (That payment = interest + principal in an ordinary month of the
    baseline and of the refinance holds up to rounding only.) *)
Theorem C10_accounting_identity (principal rate : Q) (years : Z) (e : Q)
  (lm : option Z) (L : Q) (carry new_rate rem pay : Q) (start : Z)
  (ci cp : Q) :
  match amortization_schedule principal rate years with
  | Some bs =>
      exists std,
        calculate_monthly_payment principal rate years = Some std
        /\ each_from b_Balance (base_record_ok std) principal bs
  | None => True
  end
  /\ (0 <= e -> 0 <= L ->
      match amortization_schedule_with_payoffs principal rate years e lm L
      with
      | Some xs => each_from x_Balance extra_record_ok principal xs
      | None => True
      end)
  /\ each_from r_Balance (refi_record_ok pay) carry
       (amortization_refinance carry new_rate rem pay start ci cp).
Proof.
  unfold amortization_schedule, amortization_schedule_with_payoffs,
    amortization_refinance.
  destruct (calculate_monthly_payment principal rate years) as [std |].
  - cbn zeta. split; [| split].
    + exists std. split; [reflexivity |].
      apply base_frame_record_ok, base_loop_record_ok.
    + intros He HL.
      apply extra_frame_record_ok, extra_loop_record_ok; assumption.
    + apply refi_loop_record_ok.
  - split; [exact I |]. split; [intros _ _; exact I |].
    apply refi_loop_record_ok.
Qed.

Lemma C10_accounting_identity_witness :
  (0 <= 500 /\ 0 <= 300000)
  /\ match amortization_schedule_with_payoffs 580000 (427 # 10000) 24 500
             (Some 24%Z) 300000
     with
     | Some xs => each_from x_Balance extra_record_ok 580000 xs
     | None => True
     end.
Proof.
  destruct (C10_accounting_identity 580000 (427 # 10000) 24 500
              (Some 24%Z) 300000 0 0 0 0 0 0 0) as (_ & X & _).
  assert (He : 0 <= 500) by discriminate.
  assert (HL : 0 <= 300000) by discriminate.
  split; [split; assumption | exact (X He HL)].
Defined.

(** C10 fails as stated, in binary64 as the code runs: the identity is not
    exact in an ordinary month of the baseline.  In month 67 of
    amortization_schedule(100000, 0.035, 15) the payment is the standard
    payment 714.8825413431731 and the principal is that payment less the
    interest; the interest 201.97161030189312 plus the principal
    512.91093104128 is 714.8825413431732. *)
Lemma C10_rounded_identity_counterexample :
  exists bs row,
    B64.amortization_schedule B64.pow_nearest 100000 0.035 15 = B64.Value bs
    /\ nth_error bs 66 = Some row
    /\ B64.b_Month row = 67%Z
    /\ B64.b_Interest row = 201.97161030189312%float
    /\ B64.b_Principal row = 512.91093104128%float
    /\ B64.b_Payment row = 714.8825413431731%float
    /\ (B64.b_Interest row + B64.b_Principal row)%float
       = 714.8825413431732%float
    /\ (B64.b_Payment row =? B64.b_Interest row + B64.b_Principal row)%float
       = false.
Proof.
  do 2 eexists.
  split; [vm_compute; reflexivity |].
  split; [vm_compute; reflexivity |].
  repeat split; vm_compute; reflexivity.
Qed.

(** * A lump sum that covers the balance, month by month *)

Section BeforeLump.

Variables (r p0 e : Q) (m : Z) (L principal : Q).
Hypothesis r_nonneg : 0 <= r.
Hypothesis e_nonneg : 0 <= e.
Hypothesis payment_covers_interest : r * principal < p0.


End BeforeLump.



(** * Bounds on the standard payment *)

(** X11: for valid loan terms, a standard payment that
    calculate_monthly_payment returns is at least the first month's
    interest and less than the amount that would clear the loan in one
    month (principal plus that interest). *)
Theorem X11_standard_payment_bounds (principal rate : Q) (years : Z) :
  valid_terms principal rate years ->
  match calculate_monthly_payment principal rate years with
  | Some std =>
      principal * (rate / 12) <= std
      /\ std < principal + principal * (rate / 12)
  | None => True
  end.
Proof.
  intro V.
  destruct (valid_terms_payment _ _ _ V) as (std & E & Hstd & _).
  destruct V as (HP & Hr0 & Hr1 & Hy).
  assert (Hm : 0 < rate / 12) by (apply Qlt_shift_div_l; lra).
  pose proof (ideal_balance_positive (rate / 12) std principal (years * 12)
                1 Hm HP ltac:(lia) E) as H.
  rewrite E. cbn [ideal_balance] in H. split; lra.
Qed.

Lemma X11_standard_payment_bounds_witness :
  match calculate_monthly_payment 1200 (3 # 4) 1 with
  | Some std =>
      1200 * ((3 # 4) / 12) <= std /\ std < 1200 + 1200 * ((3 # 4) / 12)
  | None => True
  end.
Proof.
  apply (X11_standard_payment_bounds 1200 (3 # 4) 1).
  unfold valid_terms. repeat split.
Defined.

(** * Only the final record can be clamped *)

Lemma extra_frame_loop_unclamped (r p0 e : Q) (lm : option Z) (L : Q)
  (k : nat) :
  forall month b cis cps,
    before_final
      (fun row =>
         x_ScheduledPrincipal row = p0 - x_Interest row
         /\ x_ExtraPrincipal row = extra_at e lm L (x_Month row)
         /\ x_Payment row
            = x_Interest row
              + (x_ScheduledPrincipal row + x_ExtraPrincipal row))
      (extra_frame month (extra_loop r p0 e lm L k month b) cis cps).
Proof.
  induction k as [| k IH]; intros month b cis cps; [exact I |].
  cbn [extra_loop].
  destruct cis as [| ci cis]; [exact I |].
  destruct cps as [| cp cps]; [exact I |].
  cbn [extra_frame]. apply before_final_cons.
  - destruct (Qgt_bool
                (p0 - b * r + (if is_lump_month lm month then e + L else e))
                b) eqn:Hc.
    + assert (Hz : Qle_bool (b - b) 0 = true) by (apply Qle_bool_iff; lra).
      rewrite Hz. intro Hne. exfalso. apply Hne. reflexivity.
    + intros _. cbn. repeat split.
  - match goal with |- context [Qle_bool ?x 0] => destruct (Qle_bool x 0) end;
      [exact I | apply IH].
Qed.

(** X15: the clamp can only act on the final record.  In every record
    before the final one, amortization_schedule and amortization_refinance
    charge exactly the scheduled payment, and
    amortization_schedule_with_payoffs reports the scheduled principal as
    the standard payment less the interest, the extra principal as the
    monthly extra, with the lump sum added in the record of the lump-sum
    month and in no other, and the payment as the interest plus the two. *)
Theorem X15_only_final_record_clamped (principal rate : Q) (years : Z)
  (e : Q) (lm : option Z) (L : Q) (carry new_rate rem pay : Q) (start : Z)
  (ci cp : Q) :
  match calculate_monthly_payment principal rate years,
        amortization_schedule principal rate years,
        amortization_schedule_with_payoffs principal rate years e lm L with
  | Some std, Some bs, Some xs =>
      before_final (fun row => b_Payment row = std
                               /\ b_Principal row = std - b_Interest row) bs
      /\ before_final
           (fun row => x_ScheduledPrincipal row = std - x_Interest row
                       /\ x_ExtraPrincipal row
                          = extra_at e lm L (x_Month row)
                       /\ x_Payment row
                          = x_Interest row
                            + (x_ScheduledPrincipal row
                               + x_ExtraPrincipal row)) xs
  | None, None, None => True
  | _, _, _ => False
  end
  /\ before_final (fun row => r_Payment row = pay)
       (amortization_refinance carry new_rate rem pay start ci cp).
Proof.
  unfold amortization_schedule, amortization_schedule_with_payoffs,
    amortization_refinance.
  split; [| apply refi_loop_unclamped].
  destruct (calculate_monthly_payment principal rate years) as [std |];
    [| exact I].
  cbn zeta. split.
  - eapply base_frame_before_final;
      [| apply base_loop_unclamped
       | rewrite cumsum_length, length_map; reflexivity
       | rewrite cumsum_length, length_map; reflexivity].
    intros month en c1 c2 H. exact H.
  - apply extra_frame_loop_unclamped.
Qed.

(** * Degenerate terms *)



